(** * Classification-evaluation helpers of [lab1_evalFunctions.py]

    A shallow embedding of [calcAccuracy], [calcConfusionMatrix] and
    [calcAccuracyCM], together with the parts of NumPy they call, and the
    properties of the evaluation module stated over that embedding.  The
    network assembly of [build_DNN] in [utilities.py] is embedded as well.

    Conventions of the embedding:
    - a label is an integer ([Z]); a label sequence is a [list Z].  The
      embedding follows NumPy on the labels an integer array holds, those
      that fit int64.  A Python list with an integer outside that range
      makes NumPy convert the labels to float64 or to Python objects and
      fail in other ways on indexing; and joining a label array with an
      empty list converts it to float64, which is exact up to 2^53.  A
      statement that depends on either carries the hypothesis [int64] or
      [float_exact]: the definitions below compare and index integers
      without bound, and the hypothesis keeps the statement to the inputs on
      which NumPy does the same;
    - the confusion matrix is the list of its rows.  Its cells are float64
      values that only ever hold integer counts, which float64 represents
      exactly below 2^53, so a cell is a [Z];
    - a float64 quotient of two such integers is represented by the exact
      rational it rounds, or by the special values NaN and +-inf that NumPy
      returns for a zero divisor, together with the [RuntimeWarning] NumPy
      emits in that case;
    - a raised Python exception is the [Raise] branch of [result]. *)

From Stdlib Require Import QArith Qreduction Ascii.
From stdpp Require Import numbers list sorting strings.

#[local] Open Scope Z_scope.

(** ** Python exceptions and NumPy scalars *)

Inductive pyerr : Type :=
  | ValueError      (* raised by [calcAccuracy] itself *)
  | IndexError      (* raised by NumPy indexing, for an int64 index out of bounds *)
  | DegenerateInput (* named by the specification only; no code path raises it *).

Inductive result (A : Type) : Type :=
  | Ok (a : A)
  | Raise (e : pyerr).
Arguments Ok {A} a.
Arguments Raise {A} e.

Definition bind {A B} (m : result A) (k : A → result B) : result B :=
  match m with
  | Ok a => k a
  | Raise e => Raise e
  end.

Notation "x <-! m ;; k" := (bind m (λ x, k))
  (at level 100, m at next level, right associativity).

(** [o] is the outcome of a NumPy indexing operation: [None] is IndexError. *)
Definition index_or_raise {A} (o : option A) : result A :=
  match o with
  | Some a => Ok a
  | None => Raise IndexError
  end.

Inductive npfloat : Type :=
  | FVal (q : Q)
  | FInf (negative : bool)
  | FNaN.

Inductive RuntimeWarning : Type :=
  | DivideByZero  (* "divide by zero encountered in divide" *)
  | InvalidValue  (* "invalid value encountered in divide" *).

(** The value of a float division and the warnings it emitted. *)
Definition np_scalar : Type := npfloat * list RuntimeWarning.

(** [a / b] on NumPy scalars holding the integers [a] and [b]. *)
Definition np_true_divide (a b : Z) : np_scalar :=
  if decide (b = 0) then
    if decide (a = 0) then (FNaN, [InvalidValue])
    else (FInf (bool_decide (a < 0)), [DivideByZero])
  else (FVal (Qred (inject_Z a / inject_Z b)), []).

(** ** NumPy array operations used by the module *)

(** A 2-d array, as the list of its rows. *)
Abbreviation matrix := (list (list Z)) (only parsing).

(** [np.zeros((n, m))] *)
Definition np_zeros (n m : nat) : matrix := replicate n (replicate m 0).

(** Drop every element equal to its predecessor (the mask step of
    [np.unique] on the sorted array). *)
Fixpoint drop_repeats (l : list Z) : list Z :=
  match l with
  | [] => []
  | x :: l' =>
      match l' with
      | [] => [x]
      | y :: _ => if decide (x = y) then drop_repeats l' else x :: drop_repeats l'
      end
  end.

(** [np.unique(a)]: sort, then keep one copy of each value. *)
Definition np_unique (a : list Z) : list Z := drop_repeats (merge_sort Z.le a).

(** How NumPy resolves an integer index [i] on an axis of size [n]:
    [0 <= i < n] is itself, [-n <= i < 0] counts from the end, anything else
    is out of bounds. *)
Definition norm_index (n : nat) (i : Z) : option nat :=
  if decide (0 ≤ i < Z.of_nat n) then Some (Z.to_nat i)
  else if decide (- Z.of_nat n ≤ i < 0) then Some (Z.to_nat (i + Z.of_nat n))
  else None.

(** [cM[i, j]] *)
Definition np_getitem2 (cM : matrix) (i j : Z) : option Z :=
  r ← norm_index (length cM) i;
  row ← cM !! r;
  c ← norm_index (length row) j;
  row !! c.

(** [cM[i, j] = v] *)
Definition np_setitem2 (cM : matrix) (i j : Z) (v : Z) : option matrix :=
  r ← norm_index (length cM) i;
  row ← cM !! r;
  c ← norm_index (length row) j;
  Some (<[r := <[c := v]> row]> cM).

(** [np.sum] of a 1-d array, and of a 2-d array over both axes. *)
Definition vsum (v : list Z) : Z := foldr Z.add 0 v.
Definition np_sum (cM : matrix) : Z := vsum (vsum <$> cM).

(** [np.trace(cM)]: the entries [cM[i][i]] that exist. *)
Fixpoint trace_from (i : nat) (rows : list (list Z)) : Z :=
  match rows with
  | [] => 0
  | row :: rows' => default 0 (row !! i) + trace_from (S i) rows'
  end.
Definition np_trace (cM : matrix) : Z := trace_from 0 cM.

(** [LPred == LTrue] on arrays of one length, and [np.sum] of the booleans. *)
Definition np_equal (a b : list Z) : list bool := zip_with Z.eqb a b.
Definition np_count_true (m : list bool) : Z := vsum ((λ b : bool, if b then 1 else 0) <$> m).

(** ** The three functions of [lab1_evalFunctions.py] *)

Definition calcAccuracy (LPred LTrue : list Z) : result np_scalar :=
  if decide (length LPred ≠ length LTrue) then Raise ValueError
  else
    let N := Z.of_nat (length LPred) in
    let comparison := np_equal LPred LTrue in
    let trueCount := np_count_true comparison in
    Ok (np_true_divide trueCount N).

(** The body of the loop: [cM[pred,true] = cM[pred,true] + 1]
    ([true_] is the source's loop variable [true]). *)
Definition cm_step (cM : matrix) (tp : Z * Z) : result matrix :=
  let '(true_, pred) := tp in
  v <-! index_or_raise (np_getitem2 cM pred true_) ;;
  index_or_raise (np_setitem2 cM pred true_ (v + 1)).

(** [for true, pred in zip(LTrue, LPred): ...] *)
Fixpoint cm_loop (pairs : list (Z * Z)) (cM : matrix) : result matrix :=
  match pairs with
  | [] => Ok cM
  | tp :: rest => cM' <-! cm_step cM tp ;; cm_loop rest cM'
  end.

Definition calcConfusionMatrix (LPred LTrue : list Z) : result matrix :=
  let results := LPred ++ LTrue in
  let labels := np_unique results in
  let classNum := length labels in
  let cM := np_zeros classNum classNum in
  cm_loop (zip LTrue LPred) cM.

Definition calcAccuracyCM (cM : matrix) : result np_scalar :=
  let trueSum := np_trace cM in
  let N := np_sum cM in
  Ok (np_true_divide trueSum N).

(** The number of classes [calcConfusionMatrix] allocates for. *)
Definition classNum (LPred LTrue : list Z) : nat := length (np_unique (LPred ++ LTrue)).

(** ** Specification-side notions

    These follow the words of the specification, not the code. *)

(** The two sequences hold labels [p] and [t] related by [R] at position [i]. *)
Definition holds_at (R : Z → Z → Prop) (P T : list Z) (i : nat) : Prop :=
  match P !! i, T !! i with
  | Some p, Some t => R p t
  | _, _ => False
  end.

#[local] Instance holds_at_dec R `{!∀ p t, Decision (R p t)} P T i : Decision (holds_at R P T i).
Proof. unfold holds_at. destruct (P !! i), (T !! i); apply _. Defined.

(** "The number of positions [i] where ..." *)
Definition count_positions (R : Z → Z → Prop) `{!∀ p t, Decision (R p t)} (P T : list Z) : nat :=
  length (filter (holds_at R P T) (seq 0 (length P))).

(** Number of positions where [predicted[i] == actual[i]]. *)
Definition correct_count (P T : list Z) : nat := count_positions (=) P T.

(** Number of samples predicted as [lp] whose true label is [lt]. *)
Definition sample_count (lp lt : Z) (P T : list Z) : nat :=
  count_positions (λ p t, p = lp ∧ t = lt) P T.

(** ** Notions for stating what the code computes *)

(** The cell in row [r] and column [c], when the matrix has one. *)
Definition cell (cM : matrix) (r c : nat) : option Z := cM !! r ≫= (.!! c).

(** A matrix of [K] rows of [K] cells. *)
Definition square (K : nat) (cM : matrix) : Prop :=
  length cM = K ∧ Forall (λ row, length row = K) cM.

(** A label that is a class index of a [K]-class problem. *)
Definition class_index (K : nat) (l : Z) : Prop := 0 ≤ l < Z.of_nat K.

(** A label that NumPy accepts as an index on an axis of size [K]. *)
Definition in_bounds (K : nat) (l : Z) : Prop := - Z.of_nat K ≤ l < Z.of_nat K.

#[local] Instance class_index_dec K l : Decision (class_index K l).
Proof. unfold class_index. apply _. Defined.
#[local] Instance in_bounds_dec K l : Decision (in_bounds K l).
Proof. unfold in_bounds. apply _. Defined.

(** Both labels of a zipped pair [(true, pred)] are accepted as indices of a
    [K] x [K] matrix. *)
Definition pair_in_bounds (K : nat) (tp : Z * Z) : Prop :=
  in_bounds K tp.2 ∧ in_bounds K tp.1.

(** Zipped pairs [(true, pred)] that the loop counts in row [r], column [c],
    and those it counts on the diagonal. *)
Definition hits (K r c : nat) (pairs : list (Z * Z)) : nat :=
  length (filter (λ tp, norm_index K tp.2 = Some r ∧ norm_index K tp.1 = Some c) pairs).
Definition diag_hits (K : nat) (pairs : list (Z * Z)) : nat :=
  length (filter (λ tp, norm_index K tp.2 = norm_index K tp.1) pairs).

(** Cells of a matrix of counts are not negative. *)
Definition count_matrix (cM : matrix) : Prop := Forall (Forall (Z.le 0)) cM.

(** ** The statements of the specification, as predicates *)

(** [calcAccuracyCM(calcConfusionMatrix(P, T))] *)
Definition matrix_accuracy (P T : list Z) : result np_scalar :=
  cM <-! calcConfusionMatrix P T ;; calcAccuracyCM cM.

(** Both accuracy computations return one and the same number. *)
Definition accuracies_agree (P T : list Z) : Prop :=
  ∃ q, calcAccuracy P T = Ok (FVal q, []) ∧ matrix_accuracy P T = Ok (FVal q, []).

(** The matrix is [K]x[K] and its cell [(r, c)] counts the samples predicted
    as the [r]-th and truly of the [c]-th label of the canonical ordering. *)
Definition counts_by_sorted_position (P T : list Z) : Prop :=
  ∃ cM, calcConfusionMatrix P T = Ok cM ∧ square (classNum P T) cM ∧
        ∀ r c lr lc,
          np_unique (P ++ T) !! r = Some lr → np_unique (P ++ T) !! c = Some lc →
          cell cM r c = Some (Z.of_nat (sample_count lr lc P T)).

(** The entries of the returned matrix sum to the number of samples. *)
Definition entries_sum_to_length (P T : list Z) : Prop :=
  ∃ cM, calcConfusionMatrix P T = Ok cM ∧ np_sum cM = Z.of_nat (length P).

(** A zero-sum matrix is rejected, or answered by a NaN that no division by
    zero produced. *)
Definition degenerate_is_explicit (cM : matrix) : Prop :=
  calcAccuracyCM cM = Raise DegenerateInput ∨ calcAccuracyCM cM = Ok (FNaN, []).

(** Every cell off the diagonal is zero. *)
Definition diagonal (cM : matrix) : Prop :=
  ∀ r c v, r ≠ c → cell cM r c = Some v → v = 0.

(** Accuracy exactly 1.0 and a diagonal confusion matrix. *)
Definition perfect_prediction (P : list Z) : Prop :=
  calcAccuracy P P = Ok (FVal 1, []) ∧
  ∃ cM, calcConfusionMatrix P P = Ok cM ∧ diagonal cM.

(** The row (and column) the code uses for a label is the position of the
    label in the canonical ordering. *)
Definition canonical_row_order (P T : list Z) : Prop :=
  ∀ l r, l ∈ P ++ T →
         np_unique (P ++ T) !! r = Some l → norm_index (classNum P T) l = Some r.

(** The concrete scenario of the specification. *)
Definition scenario_P : list Z := [0; 1; 1; 0; 1].
Definition scenario_T : list Z := [0; 1; 0; 0; 1].
Definition scenario_cM : matrix := [[2; 0]; [1; 2]].

(** ** Further notions for the evaluation functions *)

(** NumPy resolves the label [l] to row (or column) [r] of an axis of size
    [K]: [l] is [r] itself, or [r] counted from the end. *)
Definition resolves_to (K r : nat) (l : Z) : Prop :=
  l = Z.of_nat r ∨ l = Z.of_nat r - Z.of_nat K.

#[local] Instance resolves_to_dec K r l : Decision (resolves_to K r l).
Proof. unfold resolves_to. apply _. Defined.

(** The total of row [r] and the total of column [c] of a matrix. *)
Definition row_total (cM : matrix) (r : nat) : Z := vsum (default [] (cM !! r)).
Definition column_total (cM : matrix) (c : nat) : Z :=
  vsum ((λ row : list Z, default 0 (row !! c)) <$> cM).

(** How many samples of a sequence carry the label [l]. *)
Definition occurrences (l : Z) (L : list Z) : nat := length (filter (λ x, x = l) L).

(** A label that fits NumPy's int64, and a label that int64 and float64
    both hold exactly. *)
Definition int64 (l : Z) : Prop := - 2 ^ 63 ≤ l < 2 ^ 63.
Definition float_exact (l : Z) : Prop := - 2 ^ 53 ≤ l ≤ 2 ^ 53.

#[local] Instance int64_dec l : Decision (int64 l).
Proof. unfold int64. apply _. Defined.
#[local] Instance float_exact_dec l : Decision (float_exact l).
Proof. unfold float_exact. apply _. Defined.

(** Binary predictions that are wrong at every position. *)
Definition flipped_P : list Z := [1; 0; 1].
Definition flipped_T : list Z := [0; 1; 0].

(** Sample inputs with negative labels. *)
Definition wrapped_P : list Z := [-1; -1; 0].
Definition wrapped_T : list Z := [-1; 0; 0].

(** ** [utilities.py]: assembling the network

    [build_DNN] configures Keras objects.  A Keras object is represented by
    the constructor call that makes it, a [Sequential] model by the layers
    added to it, in order, and by the arguments of [compile]; what Keras does
    with them is outside the embedding, and so are the errors Keras raises
    for arguments it rejects (a negative number of units, an unknown
    activation): what is said of a model is said of a call that returns one.  Python floats that the code only
    passes on (learning rate, dropout rate, KL weight) are rationals; the
    [loss] argument is passed on as it is, so its type is a parameter.
    Optimizer names are ASCII strings. *)

(** [str.lower] on ASCII characters and strings. *)
Definition lower_ascii (c : ascii) : ascii :=
  let n := nat_of_ascii c in
  if decide (65 ≤ n ≤ 90)%nat then ascii_of_nat (n + 32) else c.

Fixpoint lower (s : string) : string :=
  match s with
  | EmptyString => EmptyString
  | String c s' => String (lower_ascii c) (lower s')
  end.

Inductive optimizer_obj : Type :=
  | SGD (learning_rate : Q)
  | Adam (learning_rate : Q).

Inductive layer : Type :=
  | Input (shape : list Z)
  | BatchNormalization
  | Dense (units : Z) (activation : option string)
  | DenseVariational (units : Z) (kl_weight : option Q)
      (* make_prior_fn = prior, make_posterior_fn = posterior *)
  | Activation (act_fun : string)
  | Dropout (rate : Q)
  | myDropout (rate : Q).

(** A [Sequential] model: its layers, and the arguments of [compile] once it
    is compiled. *)
Record Sequential (Loss : Type) : Type := mkSequential {
  layers : list layer;
  compiled : option (Loss * optimizer_obj * list string)
}.
Arguments mkSequential {Loss} layers compiled.
Arguments layers {Loss} s.
Arguments compiled {Loss} s.

(** [Sequential()], [model.add(l)] and [model.compile(...)]. *)
Definition new_Sequential {Loss} : Sequential Loss := mkSequential [] None.
Definition add {Loss} (model : Sequential Loss) (l : layer) : Sequential Loss :=
  mkSequential (layers model ++ [l]) (compiled model).
Definition compile {Loss} (model : Sequential Loss)
    (loss : Loss) (optimizer : optimizer_obj) (metrics : list string) : Sequential Loss :=
  mkSequential (layers model) (Some (loss, optimizer, metrics)).

(** [for _ in range(n): body] on the state [m]. *)
Fixpoint for_range {M} (n : nat) (body : M → M) (m : M) : M :=
  match n with
  | O => m
  | S n' => for_range n' body (body m)
  end.

(** The optimizer selected by the string argument. *)
Definition select_optimizer (optimizer : string) (learning_rate : Q) : result optimizer_obj :=
  if decide (lower optimizer = "sgd"%string) then Ok (SGD learning_rate)
  else if decide (lower optimizer = "adam"%string) then Ok (Adam learning_rate)
  else Raise ValueError.

(** The body of the loop over the hidden layers. *)
Definition add_hidden_layer {Loss} (n_hidden_units : Z) (act_fun : string)
    (use_bn use_dropout use_custom_dropout use_variational_layer : bool)
    (kl_weight : option Q) (model : Sequential Loss) : Sequential Loss :=
  let model :=
    if use_variational_layer
    then add model (DenseVariational n_hidden_units kl_weight)
    else add model (Dense n_hidden_units None) in
  let model := if use_bn then add model BatchNormalization else model in
  let model := add model (Activation act_fun) in
  let model := if use_dropout then add model (Dropout (1 # 2)) else model in
  let model := if use_custom_dropout then add model (myDropout (1 # 2)) else model in
  model.

(** [build_DNN]; the boolean of the result tells whether [model.summary()]
    was printed. *)
Definition build_DNN {Loss} (input_shape : list Z) (n_hidden_layers n_hidden_units : Z)
    (loss : Loss) (act_fun optimizer : string) (learning_rate : Q)
    (use_bn use_dropout use_custom_dropout print_summary use_variational_layer : bool)
    (kl_weight : option Q) : result (Sequential Loss * bool) :=
  optimizer <-! select_optimizer optimizer learning_rate ;;
  let model := new_Sequential in
  let model := add model (Input input_shape) in
  let model := if use_bn then add model BatchNormalization else model in
  let model :=
    for_range (Z.to_nat n_hidden_layers)
      (add_hidden_layer n_hidden_units act_fun use_bn use_dropout use_custom_dropout
         use_variational_layer kl_weight) model in
  let model := add model (Dense 1 (Some "sigmoid"%string)) in
  let model := compile model loss optimizer ["accuracy"%string] in
  Ok (model, print_summary).

(** The layers one pass of the loop adds. *)
Definition hidden_block (n_hidden_units : Z) (act_fun : string)
    (use_bn use_dropout use_custom_dropout use_variational_layer : bool)
    (kl_weight : option Q) : list layer :=
  [if use_variational_layer then DenseVariational n_hidden_units kl_weight
   else Dense n_hidden_units None]
  ++ (if use_bn then [BatchNormalization] else [])
  ++ [Activation act_fun]
  ++ (if use_dropout then [Dropout (1 # 2)] else [])
  ++ (if use_custom_dropout then [myDropout (1 # 2)] else []).

(** The layers of the network the arguments ask for: the input, an optional
    batch normalisation, one block per hidden layer, and the output unit. *)
Definition architecture (input_shape : list Z) (n_hidden_layers n_hidden_units : Z)
    (act_fun : string)
    (use_bn use_dropout use_custom_dropout use_variational_layer : bool)
    (kl_weight : option Q) : list layer :=
  [Input input_shape]
  ++ (if use_bn then [BatchNormalization] else [])
  ++ mjoin (replicate (Z.to_nat n_hidden_layers)
              (hidden_block n_hidden_units act_fun use_bn use_dropout use_custom_dropout
                 use_variational_layer kl_weight))
  ++ [Dense 1 (Some "sigmoid"%string)].

(** Layer kinds. *)
Definition is_Dense (l : layer) : bool :=
  match l with Dense _ _ => true | _ => false end.
Definition is_DenseVariational (l : layer) : bool :=
  match l with DenseVariational _ _ => true | _ => false end.

(** 1 for a set flag, 0 otherwise. *)
Definition flag (b : bool) : nat := if b then 1 else 0.

(** Sample calls of [build_DNN]: two hidden layers of 16 units with batch
    normalisation and dropout, and the same call with no hidden layer. *)
Definition demo_model : Sequential string :=
  mkSequential
    [Input [10]; BatchNormalization;
     Dense 16 None; BatchNormalization; Activation "relu"; Dropout (1 # 2);
     Dense 16 None; BatchNormalization; Activation "relu"; Dropout (1 # 2);
     Dense 1 (Some "sigmoid"%string)]
    (Some ("binary_crossentropy"%string, Adam (1 # 100), ["accuracy"%string])).
Definition demo_flat_model : Sequential string :=
  mkSequential
    [Input [10]; BatchNormalization; Dense 1 (Some "sigmoid"%string)]
    (Some ("binary_crossentropy"%string, Adam (1 # 100), ["accuracy"%string])).
Definition demo_build (n_hidden_layers : Z) : result (Sequential string * bool) :=
  build_DNN [10] n_hidden_layers 16 "binary_crossentropy"%string "relu"%string
    "Adam"%string (1 # 100) true true false false false None.

(** ** Concrete runs *)

Example unique_run : np_unique [3; 1; 3; -2; 1] = [-2; 1; 3].
Proof. reflexivity. Qed.

Example cm_binary : calcConfusionMatrix [0;1;1;0;1] [0;1;0;0;1] = Ok [[2;0];[1;2]].
Proof. reflexivity. Qed.

Example cm_out_of_bounds : calcConfusionMatrix [1] [1] = Raise IndexError.
Proof. reflexivity. Qed.

Example cm_negative_wraps : calcConfusionMatrix [-1;-1;0] [-1;-1;0] = Ok [[1;0];[0;2]].
Proof. reflexivity. Qed.

Example acc_empty : calcAccuracy [] [] = Ok (FNaN, [InvalidValue]).
Proof. reflexivity. Qed.

Example acc_binary : calcAccuracy [0;1;1;0;1] [0;1;0;0;1] = Ok (FVal (4 # 5), []).
Proof. reflexivity. Qed.

(** ** [np.unique]: the canonical ordering of the labels *)

Section unique.
Implicit Types l a : list Z.

Lemma drop_repeats_cons2 x y l :
  drop_repeats (x :: y :: l) =
    if decide (x = y) then drop_repeats (y :: l) else x :: drop_repeats (y :: l).
Proof. reflexivity. Qed.

Lemma elem_of_drop_repeats x l : x ∈ drop_repeats l ↔ x ∈ l.
Proof.
  induction l as [|y [|z l] IH]; [done..|].
  rewrite drop_repeats_cons2. case_decide as Hyz.
  - subst z. rewrite IH, !elem_of_cons. tauto.
  - by rewrite elem_of_cons, IH, !elem_of_cons.
Qed.

Lemma drop_repeats_sorted l :
  StronglySorted Z.le l → StronglySorted Z.lt (drop_repeats l).
Proof.
  induction l as [|y [|z l] IH]; intros Hs.
  - constructor.
  - repeat constructor.
  - rewrite drop_repeats_cons2.
    apply StronglySorted_cons in Hs as [Hy Hs].
    case_decide as Hyz; [by apply IH|].
    apply StronglySorted_cons. split; [|by apply IH].
    apply Forall_forall. intros w Hw.
    apply (proj1 (elem_of_drop_repeats _ _)) in Hw.
    apply StronglySorted_cons in Hs as [Hz _].
    apply Forall_cons in Hy as [Hyz' _].
    apply elem_of_cons in Hw as [->|Hw]; [lia|].
    rewrite Forall_forall in Hz. specialize (Hz _ Hw). lia.
Qed.

Lemma np_unique_sorted a : StronglySorted Z.lt (np_unique a).
Proof.
  apply drop_repeats_sorted, Sorted_StronglySorted; [apply _|].
  apply Sorted_merge_sort; apply _.
Qed.

Lemma elem_of_np_unique x a : x ∈ np_unique a ↔ x ∈ a.
Proof.
  unfold np_unique. rewrite elem_of_drop_repeats.
  by rewrite (merge_sort_Permutation Z.le a).
Qed.

(** In a strictly ascending list of integers, values are at least as far
    apart as their positions. *)
Lemma ascending_gap l i j x y :
  StronglySorted Z.lt l → l !! i = Some x → l !! j = Some y → (i ≤ j)%nat →
  x + Z.of_nat (j - i) ≤ y.
Proof.
  intros Hs. revert i j x y.
  induction Hs as [|z l Hs IH Hz]; intros i j x y Hi Hj Hij.
  - done.
  - destruct i as [|i], j as [|j]; simpl in *.
    + simplify_eq. lia.
    + simplify_eq. destruct l as [|w l]; [done|].
      apply Forall_cons in Hz as [Hzw _].
      assert (w + Z.of_nat (j - 0) ≤ y) by (apply (IH 0%nat j); [done|done|lia]).
      lia.
    + lia.
    + apply (IH i j); [done|done|lia].
Qed.

Lemma ascending_NoDup l : StronglySorted Z.lt l → NoDup l.
Proof.
  induction 1 as [|z l Hs IH Hz]; constructor; [|done].
  intros Hin. rewrite Forall_forall in Hz. specialize (Hz _ Hin). lia.
Qed.

(** When every label is a class index, the canonical ordering lists
    [0, 1, ..., K-1]: the position of a label is the label itself. *)
Lemma np_unique_class_indices a r :
  Forall (class_index (length (np_unique a))) a →
  (r < length (np_unique a))%nat →
  np_unique a !! r = Some (Z.of_nat r).
Proof.
  intros Ha Hr. pose proof (np_unique_sorted a) as Hs.
  set (u := np_unique a) in *.
  assert (Hu : ∀ i x, u !! i = Some x → class_index (length u) x).
  { intros i x Hx. rewrite Forall_forall in Ha. apply Ha.
    apply elem_of_np_unique, list_elem_of_lookup. eauto. }
  destruct (lookup_lt_is_Some_2 u r Hr) as [x Hx].
  destruct (lookup_lt_is_Some_2 u 0%nat ltac:(lia)) as [x0 Hx0].
  destruct (lookup_lt_is_Some_2 u (length u - 1)%nat ltac:(lia)) as [xl Hxl].
  pose proof (ascending_gap u 0%nat r x0 x Hs Hx0 Hx ltac:(lia)).
  pose proof (ascending_gap u r (length u - 1)%nat x xl Hs Hx Hxl ltac:(lia)).
  pose proof (Hu _ _ Hx0) as [? ?]. pose proof (Hu _ _ Hxl) as [? ?].
  rewrite Hx. f_equal. lia.
Qed.
End unique.

(** ** Counting positions and counting zipped pairs *)

Section counting.
Context (R : Z → Z → Prop) `{!∀ p t, Decision (R p t)}.

Lemma filter_seq_shift (Q : nat → Prop) `{!∀ i, Decision (Q i)} j n :
  length (filter Q (seq (S j) n)) = length (filter (λ i, Q (S i)) (seq j n)).
Proof.
  revert j. induction n as [|n IH]; intros j; [done|].
  simpl. rewrite !filter_cons. destruct (decide (Q (S j))); simpl; by rewrite IH.
Qed.

Lemma filter_none {A} (Q : A → Prop) `{!∀ x, Decision (Q x)} (l : list A) :
  (∀ x, ¬ Q x) → filter Q l = [].
Proof.
  intros HQ. induction l as [|x l IH]; [done|].
  by rewrite filter_cons_False.
Qed.

(** Counting positions of two sequences is counting their zipped pairs. *)
Lemma count_positions_zip P T :
  count_positions R P T = length (filter (λ pt : Z * Z, R pt.1 pt.2) (zip P T)).
Proof.
  unfold count_positions. revert T. induction P as [|p P IH]; intros T; [done|].
  destruct T as [|t T].
  - rewrite filter_none; [done|]. intros i. unfold holds_at.
    rewrite lookup_nil. destruct ((p :: P) !! i); tauto.
  - cbn [length seq zip_with]. rewrite !filter_cons. cbn [fst snd].
    assert (length (filter (holds_at R (p :: P) (t :: T)) (seq 1 (length P))) =
            length (filter (λ pt : Z * Z, R pt.1 pt.2) (zip P T))) as Htl.
    { rewrite filter_seq_shift, <- IH. done. }
    destruct (decide (R p t)) as [Hr|Hr],
      (decide (holds_at R (p :: P) (t :: T) 0)) as [Hh|Hh];
      cbn [length]; rewrite ?Htl; first [done | by destruct Hr | by destruct Hh].
Qed.
End counting.

(** Counting over [zip T P] and over [zip P T] with mirrored predicates. *)
Lemma zip_swap_filter_length (Q1 Q2 : Z * Z → Prop)
    `{!∀ x, Decision (Q1 x), !∀ x, Decision (Q2 x)} (P T : list Z) :
  (∀ p t, (t, p) ∈ zip T P → Q1 (t, p) ↔ Q2 (p, t)) →
  length (filter Q1 (zip T P)) = length (filter Q2 (zip P T)).
Proof.
  revert T. induction P as [|p P IH]; intros [|t T] Hext; [done..|].
  cbn [zip_with] in *. rewrite !filter_cons.
  pose proof (Hext p t ltac:(left)) as Hx.
  assert (length (filter Q1 (zip T P)) = length (filter Q2 (zip P T))) as Htl.
  { apply IH. intros; apply Hext; by right. }
  destruct (decide (Q1 (t, p))), (decide (Q2 (p, t)));
    cbn [length]; rewrite ?Htl; tauto || done.
Qed.

Lemma np_count_true_equal P T :
  np_count_true (np_equal P T) =
  Z.of_nat (length (filter (λ pt : Z * Z, pt.1 = pt.2) (zip P T))).
Proof.
  unfold np_count_true, np_equal.
  revert T. induction P as [|p P IH]; intros [|t T]; [done..|].
  cbn [zip_with fmap list_fmap vsum foldr]. rewrite filter_cons. cbn [fst snd].
  fold (vsum ((λ b : bool, if b then 1 else 0) <$> zip_with Z.eqb P T)).
  rewrite IH. destruct (Z.eqb_spec p t); case_decide; try done; cbn [length]; lia.
Qed.

(** The code's count of correct predictions is the specification's. *)
Lemma np_count_true_correct_count P T :
  np_count_true (np_equal P T) = Z.of_nat (correct_count P T).
Proof.
  unfold correct_count. by rewrite np_count_true_equal, count_positions_zip.
Qed.

Lemma correct_count_le P T : (correct_count P T ≤ length P)%nat.
Proof.
  unfold correct_count, count_positions.
  etrans; [apply length_filter|]. by rewrite length_seq.
Qed.

Lemma zip_same_eq (P : list Z) (pt : Z * Z) : pt ∈ zip P P → pt.1 = pt.2.
Proof.
  induction P as [|p P IH]; cbn [zip_with]; [by intros ?%elem_of_nil|].
  intros [->|?]%elem_of_cons; [done|auto].
Qed.

Lemma correct_count_same P : correct_count P P = length P.
Proof.
  unfold correct_count. rewrite count_positions_zip.
  induction P as [|p P IH]; [done|].
  cbn [zip_with]. rewrite filter_cons_True by done. cbn [length]. by rewrite IH.
Qed.

(** ** Indexing and updating the matrix *)

Section indexing.
Implicit Types (cM : matrix) (row : list Z) (K r c : nat) (l : Z).

Lemma norm_index_lt K l r : norm_index K l = Some r → (r < K)%nat.
Proof. unfold norm_index. repeat case_decide; intros; simplify_eq; lia. Qed.

Lemma norm_index_class_index K l :
  class_index K l → norm_index K l = Some (Z.to_nat l).
Proof. unfold class_index, norm_index. intros. by rewrite decide_True. Qed.

Lemma norm_index_is_Some K l : is_Some (norm_index K l) ↔ in_bounds K l.
Proof.
  unfold norm_index, in_bounds. repeat case_decide;
    (split; [intros [? ?]; simplify_eq; lia | intros; try lia; eauto]).
Qed.

Lemma norm_index_None K l : norm_index K l = None ↔ ¬ in_bounds K l.
Proof. rewrite <- norm_index_is_Some, eq_None_not_Some. done. Qed.

Lemma class_index_in_bounds K l : class_index K l → in_bounds K l.
Proof. unfold class_index, in_bounds. lia. Qed.

Lemma vsum_insert row c v w :
  row !! c = Some v → vsum (<[c := w]> row) = vsum row - v + w.
Proof.
  revert c. induction row as [|x row IH]; intros [|c] Hc; simplify_eq/=.
  - lia.
  - rewrite (IH c Hc). lia.
Qed.

Lemma np_sum_insert cM r row row' :
  cM !! r = Some row →
  np_sum (<[r := row']> cM) = np_sum cM - vsum row + vsum row'.
Proof.
  intros Hr. unfold np_sum. rewrite list_fmap_insert.
  apply vsum_insert. by rewrite list_lookup_fmap, Hr.
Qed.

Lemma trace_from_insert k cM r row row' :
  cM !! r = Some row →
  trace_from k (<[r := row']> cM) =
    trace_from k cM - default 0 (row !! (k + r)%nat) + default 0 (row' !! (k + r)%nat).
Proof.
  revert k r. induction cM as [|x cM IH]; intros k [|r] Hr; simplify_eq/=.
  - rewrite Nat.add_0_r. lia.
  - rewrite (IH (S k) r Hr). replace (S k + r)%nat with (k + S r)%nat by lia. lia.
Qed.

(** The matrix after [cM[r][c] = w], where [cM[r][c]] held [v]. *)
Lemma cell_insert cM r c row v w r' c' :
  cM !! r = Some row → row !! c = Some v →
  cell (<[r := <[c := w]> row]> cM) r' c' =
    if decide (r' = r ∧ c' = c) then Some w else cell cM r' c'.
Proof.
  intros Hr Hc. unfold cell.
  apply lookup_lt_Some in Hr as Hr'. apply lookup_lt_Some in Hc as Hc'.
  destruct (decide (r' = r)) as [->|Hne].
  - rewrite list_lookup_insert_eq by done. rewrite Hr. simpl.
    destruct (decide (c' = c)) as [->|Hne].
    + rewrite list_lookup_insert_eq by done. by rewrite decide_True.
    + rewrite list_lookup_insert_ne by done. rewrite decide_False by tauto. done.
  - rewrite list_lookup_insert_ne by done. rewrite decide_False by tauto. done.
Qed.

Lemma square_insert K cM r row' :
  square K cM → length row' = K → square K (<[r := row']> cM).
Proof.
  intros [Hlen Hrows] Hrow'. split; [by rewrite length_insert|].
  by apply Forall_insert.
Qed.

Lemma square_lookup K cM r :
  square K cM → (r < K)%nat → ∃ row, cM !! r = Some row ∧ length row = K.
Proof.
  intros [Hlen Hrows] Hr.
  destruct (lookup_lt_is_Some_2 cM r ltac:(lia)) as [row Hrow].
  exists row. split; [done|]. rewrite Forall_lookup in Hrows. eauto.
Qed.

Lemma square_zeros K : square K (np_zeros K K).
Proof.
  split; [apply length_replicate|].
  apply Forall_replicate, length_replicate.
Qed.

Lemma vsum_zeros n : vsum (replicate n 0) = 0.
Proof. induction n as [|n IH]; simpl; [done|]. by rewrite IH. Qed.

Lemma np_sum_zeros n m : np_sum (np_zeros n m) = 0.
Proof.
  unfold np_sum, np_zeros. rewrite fmap_replicate, vsum_zeros. apply vsum_zeros.
Qed.

Lemma trace_from_zeros k n m : trace_from k (replicate n (replicate m 0)) = 0.
Proof.
  revert k. induction n as [|n IH]; intros k; simpl; [done|].
  rewrite IH. destruct (replicate m 0 !! k) as [x|] eqn:Hx; simpl; [|done].
  apply lookup_replicate in Hx as [-> _]. done.
Qed.

Lemma np_trace_zeros n m : np_trace (np_zeros n m) = 0.
Proof. apply trace_from_zeros. Qed.

Lemma cell_zeros K r c v : cell (np_zeros K K) r c = Some v → v = 0.
Proof.
  unfold cell, np_zeros. intros Hv.
  destruct (replicate K (replicate K 0) !! r) as [row|] eqn:Hrow; simplify_eq/=.
  apply lookup_replicate in Hrow as [-> _].
  by apply lookup_replicate in Hv as [-> _].
Qed.

Lemma cell_zeros_Some K r c :
  (r < K)%nat → (c < K)%nat → cell (np_zeros K K) r c = Some 0.
Proof.
  intros Hr Hc. unfold cell, np_zeros.
  rewrite lookup_replicate_2 by done. simpl. by rewrite lookup_replicate_2.
Qed.
End indexing.

(** ** The counting loop of [calcConfusionMatrix] *)

Section loop.
Context (K : nat).
Implicit Types (cM : matrix) (pairs : list (Z * Z)) (tp : Z * Z).

Lemma cm_step_Ok cM t p r c :
  square K cM → norm_index K p = Some r → norm_index K t = Some c →
  ∃ row v, cM !! r = Some row ∧ row !! c = Some v ∧ length row = K ∧
           cm_step cM (t, p) = Ok (<[r := <[c := v + 1]> row]> cM).
Proof.
  intros Hsq Hp Ht.
  destruct (square_lookup K cM r Hsq (norm_index_lt _ _ _ Hp)) as (row & Hrow & Hlen).
  destruct (lookup_lt_is_Some_2 row c) as [v Hv].
  { rewrite Hlen. eauto using norm_index_lt. }
  exists row, v. repeat split; try done.
  unfold cm_step, np_getitem2, np_setitem2.
  destruct Hsq as [-> _]. rewrite Hp. simpl. rewrite Hrow. simpl.
  rewrite Hlen, Ht. simpl. rewrite Hv. simpl. done.
Qed.

Lemma cm_step_Raise cM tp :
  square K cM → ¬ pair_in_bounds K tp → cm_step cM tp = Raise IndexError.
Proof.
  intros Hsq Hnb. destruct tp as [t p]. unfold pair_in_bounds in Hnb. simpl in Hnb.
  unfold cm_step, np_getitem2.
  pose proof Hsq as [Hlen _]. rewrite Hlen.
  destruct (norm_index K p) as [r|] eqn:Hp; [|done]. simpl.
  destruct (square_lookup K cM r Hsq (norm_index_lt _ _ _ Hp)) as (row & Hrow & Hrl).
  rewrite Hrow. simpl. rewrite Hrl.
  destruct (norm_index K t) as [c|] eqn:Ht; [|done].
  destruct Hnb. split; apply norm_index_is_Some; eauto.
Qed.

(** What a run of the loop that stays in bounds computes. *)
Lemma cm_loop_Ok pairs cM :
  square K cM → Forall (pair_in_bounds K) pairs →
  ∃ cM', cm_loop pairs cM = Ok cM' ∧ square K cM' ∧
         np_sum cM' = np_sum cM + Z.of_nat (length pairs) ∧
         np_trace cM' = np_trace cM + Z.of_nat (diag_hits K pairs) ∧
         ∀ r c, cell cM' r c = (λ v, v + Z.of_nat (hits K r c pairs)) <$> cell cM r c.
Proof.
  intros Hsq Hall. revert cM Hsq.
  induction Hall as [|[t p] pairs [Hp Ht] Hall IH]; intros cM Hsq.
  - exists cM. split; [done|]. split; [done|]. split; [simpl; lia|].
    split; [unfold diag_hits; simpl; lia|].
    intros r c. unfold hits. simpl. destruct (cell cM r c); simpl; f_equal; lia.
  - simpl in Hp, Ht.
    apply norm_index_is_Some in Hp as [r Hr]. apply norm_index_is_Some in Ht as [c Hc].
    destruct (cm_step_Ok cM t p r c Hsq Hr Hc) as (row & v & Hrow & Hv & Hlen & Hstep).
    set (cM1 := <[r := <[c := v + 1]> row]> cM) in *.
    assert (square K cM1) as Hsq1.
    { apply square_insert; [done|]. by rewrite length_insert. }
    destruct (IH cM1 Hsq1) as (cM' & Hloop & Hsq' & Hsum & Htr & Hcell).
    exists cM'. split; [|split; [done|split; [|split]]].
    + cbn [cm_loop]. rewrite Hstep. done.
    + rewrite Hsum. unfold cM1. rewrite (np_sum_insert _ _ row) by done.
      rewrite (vsum_insert _ _ v) by done. cbn [length]. lia.
    + rewrite Htr. unfold cM1, np_trace.
      rewrite (trace_from_insert _ _ _ row) by done. cbn [Nat.add].
      unfold diag_hits. rewrite filter_cons. cbn [fst snd]. rewrite Hr, Hc.
      destruct (decide (r = c)) as [->|Hne].
      * rewrite list_lookup_insert_eq by (by eapply lookup_lt_Some).
        rewrite Hv, decide_True by done. simpl. lia.
      * rewrite list_lookup_insert_ne by done.
        rewrite decide_False by congruence. lia.
    + intros r' c'. rewrite Hcell. unfold cM1.
      rewrite (cell_insert _ _ _ row v) by done.
      unfold hits. rewrite filter_cons. cbn [fst snd]. rewrite Hr, Hc.
      destruct (decide (r' = r ∧ c' = c)) as [[-> ->]|Hne].
      * rewrite decide_True by done. unfold cell. rewrite Hrow. simpl. rewrite Hv.
        simpl. f_equal. lia.
      * rewrite decide_False by (intros [? ?]; simplify_eq; tauto). done.
Qed.

(** A run that meets a label outside the bounds raises IndexError. *)
Lemma cm_loop_Raise pairs cM :
  square K cM → ¬ Forall (pair_in_bounds K) pairs → cm_loop pairs cM = Raise IndexError.
Proof.
  revert cM. induction pairs as [|tp pairs IH]; intros cM Hsq Hnot.
  - destruct Hnot. constructor.
  - cbn [cm_loop]. destruct (decide (pair_in_bounds K tp)) as [Hin|Hout].
    + destruct tp as [t p]. destruct Hin as [Hp Ht]. simpl in Hp, Ht.
      apply norm_index_is_Some in Hp as [r Hr]. apply norm_index_is_Some in Ht as [c Hc].
      destruct (cm_step_Ok cM t p r c Hsq Hr Hc) as (row & v & Hrow & Hv & Hlen & ->).
      simpl. apply IH.
      * apply square_insert; [done|]. by rewrite length_insert.
      * intros Hall. apply Hnot. constructor; [|done].
        split; apply norm_index_is_Some; eauto.
    + by rewrite cm_step_Raise.
Qed.
End loop.

(** ** Float division of counts *)

Section division.
Lemma np_true_divide_pos a b :
  0 < b → np_true_divide a b = (FVal (Qred (inject_Z a / inject_Z b)), []).
Proof. intros Hb. unfold np_true_divide. rewrite decide_False by lia. done. Qed.

Lemma np_true_divide_zero_zero : np_true_divide 0 0 = (FNaN, [InvalidValue]).
Proof. reflexivity. Qed.

Lemma ratio_in_unit_interval a b :
  0 ≤ a ≤ b → 0 < b →
  (0 <= Qred (inject_Z a / inject_Z b) <= 1)%Q.
Proof.
  intros [Ha Hab] Hb. rewrite Qred_correct.
  assert (0 < inject_Z b)%Q as Hb'.
  { change 0%Q with (inject_Z 0). by rewrite <- Zlt_Qlt. }
  split.
  - apply Qle_shift_div_l; [done|]. rewrite Qmult_0_l.
    change 0%Q with (inject_Z 0). by rewrite <- Zle_Qle.
  - apply Qle_shift_div_r; [done|]. rewrite Qmult_1_l. by rewrite <- Zle_Qle.
Qed.

Lemma ratio_self b : 0 < b → Qred (inject_Z b / inject_Z b) = 1%Q.
Proof.
  intros Hb. change 1%Q with (Qred 1). apply Qred_complete.
  apply Qmult_inv_r. intros Heq. rewrite (Zlt_Qlt 0 b), Heq in Hb.
  by apply Qlt_irrefl in Hb.
Qed.
End division.

(** ** Zipped samples *)

Section zipped.
Context (K : nat).
Implicit Types P T : list Z.

Lemma zip_pairs_in_bounds P T :
  Forall (in_bounds K) (P ++ T) → Forall (pair_in_bounds K) (zip T P).
Proof.
  rewrite Forall_app. intros [HP HT]. revert P HP.
  induction HT as [|t T Ht HT IH]; intros P HP; [constructor|].
  destruct HP as [|p P Hp HP]; [constructor|].
  cbn [zip_with]. constructor; [done|]. by apply IH.
Qed.

Lemma zip_pairs_in_bounds_inv P T :
  length P = length T →
  Forall (pair_in_bounds K) (zip T P) → Forall (in_bounds K) (P ++ T).
Proof.
  revert T. induction P as [|p P IH]; intros [|t T] Hlen Hall; simplify_eq/=.
  - constructor.
  - apply Forall_cons in Hall as [[Hp Ht] Hall]. simpl in Hp, Ht.
    specialize (IH T Hlen Hall). apply Forall_app in IH as [HP HT].
    constructor; [done|]. apply Forall_app. split; [done|by constructor].
Qed.

Lemma filter_length_ext {A} (Q1 Q2 : A → Prop)
    `{!∀ x, Decision (Q1 x), !∀ x, Decision (Q2 x)} (l : list A) :
  (∀ x, x ∈ l → Q1 x ↔ Q2 x) → length (filter Q1 l) = length (filter Q2 l).
Proof.
  induction l as [|x l IH]; intros Hext; [done|].
  rewrite !filter_cons.
  pose proof (Hext x ltac:(left)) as Hx.
  assert (length (filter Q1 l) = length (filter Q2 l)) as Htl.
  { apply IH. intros; apply Hext; by right. }
  destruct (decide (Q1 x)), (decide (Q2 x)); cbn [length]; rewrite ?Htl; tauto || done.
Qed.

Lemma elem_of_zip_class_index P T tp :
  Forall (class_index K) (P ++ T) → tp ∈ zip T P →
  class_index K tp.2 ∧ class_index K tp.1.
Proof.
  rewrite Forall_app, !Forall_forall. intros [HP HT] Htp. destruct tp as [t p].
  split; [eapply HP, elem_of_zip_r | eapply HT, elem_of_zip_l]; done.
Qed.

(** On class indices the diagonal hits are the correct predictions. *)
Lemma diag_hits_correct_count P T :
  Forall (class_index K) (P ++ T) →
  diag_hits K (zip T P) = correct_count P T.
Proof.
  intros Hall. unfold diag_hits, correct_count.
  rewrite count_positions_zip.
  apply zip_swap_filter_length. intros p t Htp. cbn [fst snd].
  destruct (elem_of_zip_class_index P T _ Hall Htp) as [Hp Ht].
  rewrite !norm_index_class_index by done.
  unfold class_index in *. cbn [fst snd] in *.
  split; [intros [=]; lia | by intros ->].
Qed.

(** On class indices the hits of cell [(r, c)] are the samples predicted
    as [r] whose true label is [c]. *)
Lemma hits_sample_count P T r c :
  Forall (class_index K) (P ++ T) →
  hits K r c (zip T P) = sample_count (Z.of_nat r) (Z.of_nat c) P T.
Proof.
  intros Hall. unfold hits, sample_count.
  rewrite count_positions_zip.
  apply zip_swap_filter_length. intros p t Htp. cbn [fst snd].
  destruct (elem_of_zip_class_index P T _ Hall Htp) as [Hp Ht].
  rewrite !norm_index_class_index by done.
  unfold class_index in *. cbn [fst snd] in *.
  split; [intros [[=] [=]]; lia | intros [-> ->]].
  by rewrite !Nat2Z.id.
Qed.

(** With one sequence on both sides, nothing is counted off the diagonal. *)
Lemma hits_same_off_diagonal P r c : r ≠ c → hits K r c (zip P P) = 0%nat.
Proof.
  intros Hne. unfold hits. rewrite (filter_length_ext _ (λ _, False)).
  - rewrite filter_none by tauto. done.
  - intros tp Htp. apply zip_same_eq in Htp. rewrite Htp.
    split; [intros [? ?]; congruence | done].
Qed.
End zipped.

(** ** What [calcConfusionMatrix] returns *)

Lemma calcConfusionMatrix_Ok P T :
  let K := classNum P T in
  Forall (in_bounds K) (P ++ T) →
  ∃ cM, calcConfusionMatrix P T = Ok cM ∧ square K cM ∧
        np_sum cM = Z.of_nat (length P `min` length T) ∧
        np_trace cM = Z.of_nat (diag_hits K (zip T P)) ∧
        ∀ r c, (r < K)%nat → (c < K)%nat →
               cell cM r c = Some (Z.of_nat (hits K r c (zip T P))).
Proof.
  intros K Hall. unfold calcConfusionMatrix. fold (classNum P T). fold K.
  destruct (cm_loop_Ok K (zip T P) (np_zeros K K) (square_zeros K)
              (zip_pairs_in_bounds K P T Hall))
    as (cM & Hloop & Hsq & Hsum & Htr & Hcell).
  exists cM. split; [done|]. split; [done|].
  rewrite np_sum_zeros in Hsum. rewrite np_trace_zeros in Htr.
  split; [|split].
  - rewrite Hsum, length_zip_with. lia.
  - by rewrite Htr.
  - intros r c Hr Hc. by rewrite Hcell, cell_zeros_Some.
Qed.

Lemma calcConfusionMatrix_Raise P T :
  length P = length T →
  ¬ Forall (in_bounds (classNum P T)) (P ++ T) →
  calcConfusionMatrix P T = Raise IndexError.
Proof.
  intros Hlen Hnot. unfold calcConfusionMatrix. fold (classNum P T).
  apply (cm_loop_Raise (classNum P T)); [apply square_zeros|].
  intros Hall. by apply Hnot, zip_pairs_in_bounds_inv.
Qed.

Lemma class_indices_in_bounds K (a : list Z) :
  Forall (class_index K) a → Forall (in_bounds K) a.
Proof. intros Ha. eapply Forall_impl; [done|]. apply class_index_in_bounds. Qed.

Lemma np_unique_Permutation (a a' : list Z) : a ≡ₚ a' → np_unique a = np_unique a'.
Proof.
  intros Hperm. unfold np_unique. f_equal.
  apply (Sorted_unique Z.le); [apply Sorted_merge_sort; apply _..|].
  by rewrite !merge_sort_Permutation.
Qed.

Lemma square_cell_lt K (cM : matrix) r c v :
  square K cM → cell cM r c = Some v → (r < K)%nat ∧ (c < K)%nat.
Proof.
  intros [Hlen Hrows] Hv. unfold cell in Hv.
  destruct (cM !! r) as [row|] eqn:Hrow; simplify_eq/=.
  rewrite Forall_lookup in Hrows. specialize (Hrows _ _ Hrow).
  apply lookup_lt_Some in Hrow, Hv. lia.
Qed.

Lemma calcAccuracy_equal_length P T :
  length P = length T →
  calcAccuracy P T =
    Ok (np_true_divide (Z.of_nat (correct_count P T)) (Z.of_nat (length P))).
Proof.
  intros Hlen. unfold calcAccuracy. rewrite decide_False by (by intros ?).
  by rewrite np_count_true_correct_count.
Qed.

Lemma vsum_nonneg (row : list Z) : Forall (Z.le 0) row → 0 ≤ vsum row.
Proof. induction 1; simpl; lia. Qed.

Lemma lookup_le_vsum (row : list Z) i :
  Forall (Z.le 0) row → 0 ≤ default 0 (row !! i) ≤ vsum row.
Proof.
  intros Hrow. revert i. induction Hrow as [|x row Hx Hrow IH]; intros [|i]; simpl.
  - lia.
  - lia.
  - pose proof (vsum_nonneg row Hrow). lia.
  - specialize (IH i). lia.
Qed.

Lemma trace_from_le_sum k (cM : matrix) :
  count_matrix cM → 0 ≤ trace_from k cM ≤ np_sum cM.
Proof.
  intros HcM. revert k. unfold np_sum.
  induction HcM as [|row cM Hrow HcM IH]; intros k; [simpl; lia|].
  change (vsum (vsum <$> row :: cM)) with (vsum row + vsum (vsum <$> cM)).
  cbn [trace_from].
  specialize (IH (S k)). pose proof (lookup_le_vsum row k Hrow). lia.
Qed.

(** ** The statements of the specification *)

(** *** Accuracy from labels *)

(** C4: [calcAccuracy] raises its length-mismatch error (ValueError) exactly
    when the two sequences differ in length; it raises nothing else, and
    returns a value whenever the lengths agree. *)
Theorem calcAccuracy_raises_iff_length_mismatch (P T : list Z) :
  (calcAccuracy P T = Raise ValueError ↔ length P ≠ length T) ∧
  (∀ e, calcAccuracy P T = Raise e → e = ValueError ∧ length P ≠ length T) ∧
  (length P = length T ↔ ∃ a, calcAccuracy P T = Ok a).
Proof.
  unfold calcAccuracy. case_decide as Hlen.
  - split; [done|]. split; [by intros e [= <-]|].
    split; [done|]. by intros [a ?].
  - split; [done|]. split; [done|].
    split; [eauto|]. intros _. by destruct (decide (length P = length T)).
Qed.

(** X21: for two sequences of one length N >= 1 whose labels fit int64,
    [calcAccuracy] returns the number of positions where they agree divided
    by N, a value in [0, 1]. *)
Theorem calcAccuracy_is_fraction_correct (P T : list Z) :
  length P = length T → (1 ≤ length P)%nat →
  Forall int64 (P ++ T) →
  ∃ q, calcAccuracy P T = Ok (FVal q, []) ∧
       (q == inject_Z (Z.of_nat (correct_count P T)) / inject_Z (Z.of_nat (length P)))%Q ∧
       (0 <= q <= 1)%Q.
Proof.
  intros Hlen HN _. rewrite calcAccuracy_equal_length by done.
  rewrite np_true_divide_pos by lia. eexists. split; [done|]. split.
  - apply Qred_correct.
  - pose proof (correct_count_le P T). apply ratio_in_unit_interval; lia.
Qed.

Lemma calcAccuracy_is_fraction_correct_witness :
  length scenario_P = length scenario_T ∧ (1 ≤ length scenario_P)%nat ∧
  Forall int64 (scenario_P ++ scenario_T) ∧
  ∃ q, calcAccuracy scenario_P scenario_T = Ok (FVal q, []) ∧
       (q == inject_Z (Z.of_nat (correct_count scenario_P scenario_T)) /
             inject_Z (Z.of_nat (length scenario_P)))%Q ∧
       (0 <= q <= 1)%Q.
Proof.
  assert (Forall int64 (scenario_P ++ scenario_T)) as Hint.
  { apply (bool_decide_unpack _). vm_compute. exact I. }
  split; [reflexivity|]. split; [simpl; lia|]. split; [exact Hint|].
  apply (calcAccuracy_is_fraction_correct scenario_P scenario_T);
    [reflexivity | simpl; lia | exact Hint].
Defined.

(** *** The confusion matrix *)

(** C2, as stated, fails: the code indexes the matrix with the label values
    themselves.  With labels -1 and 0 the canonical ordering is [-1; 0], so
    cell (0, 0) should count the two samples labelled -1, but NumPy resolves
    index -1 to the last row and column and the cell holds 1. *)
Lemma counts_by_sorted_position_fails :
  ¬ counts_by_sorted_position [-1; -1; 0] [-1; -1; 0].
Proof.
  intros (cM & HcM & _ & Hcells).
  assert (cM = [[1; 0]; [0; 2]]) as -> by (vm_compute in HcM; congruence).
  specialize (Hcells 0%nat 0%nat (-1) (-1) eq_refl eq_refl).
  vm_compute in Hcells. discriminate.
Qed.

(** C2, amended: when the labels of two equal-length sequences are the
    class indices 0..K-1, K the number of distinct labels, the result is a
    K x K matrix whose cell (r, c) counts the samples predicted as the r-th
    and truly of the c-th label of the sorted ordering. *)
Theorem confusion_matrix_counts_class_indices (P T : list Z) :
  length P = length T →
  Forall (class_index (classNum P T)) (P ++ T) →
  counts_by_sorted_position P T.
Proof.
  intros _ Hall.
  destruct (calcConfusionMatrix_Ok P T (class_indices_in_bounds _ _ Hall))
    as (cM & HcM & Hsq & _ & _ & Hcell).
  exists cM. split; [done|]. split; [done|].
  intros r c lr lc Hr Hc.
  apply lookup_lt_Some in Hr as Hr'. apply lookup_lt_Some in Hc as Hc'.
  fold (classNum P T) in Hr', Hc'.
  rewrite (np_unique_class_indices (P ++ T) r) in Hr by done.
  rewrite (np_unique_class_indices (P ++ T) c) in Hc by done.
  simplify_eq. rewrite Hcell by done. by rewrite (hits_sample_count _ P T).
Qed.

Lemma confusion_matrix_counts_class_indices_witness :
  length scenario_P = length scenario_T ∧
  Forall (class_index (classNum scenario_P scenario_T)) (scenario_P ++ scenario_T) ∧
  counts_by_sorted_position scenario_P scenario_T.
Proof.
  assert (Forall (class_index (classNum scenario_P scenario_T))
            (scenario_P ++ scenario_T)) as Hall.
  { apply (bool_decide_unpack _). vm_compute. exact I. }
  split; [reflexivity|]. split; [exact Hall|].
  apply (confusion_matrix_counts_class_indices scenario_P scenario_T);
    [reflexivity | exact Hall].
Defined.

(** C3, as stated, fails: a single sample with label 1 makes K = 1, and
    [cM[1, 1]] is out of bounds for the 1 x 1 matrix, so no matrix is
    returned. *)
Lemma entries_sum_to_length_fails : ¬ entries_sum_to_length [1] [1].
Proof. intros (cM & HcM & _). vm_compute in HcM. discriminate. Qed.

(** C3, amended: for equal-length sequences the call returns a matrix whose
    entries sum to N exactly when every label is a valid index of the K x K
    matrix, that is lies in [-K, K); otherwise it raises an error and returns
    no matrix, and for labels that fit int64 that error is IndexError. *)
Theorem confusion_matrix_sum_iff_in_bounds (P T : list Z) :
  length P = length T →
  (entries_sum_to_length P T ↔ Forall (in_bounds (classNum P T)) (P ++ T)) ∧
  (¬ Forall (in_bounds (classNum P T)) (P ++ T) →
   ∃ e, calcConfusionMatrix P T = Raise e) ∧
  (Forall int64 (P ++ T) → ¬ Forall (in_bounds (classNum P T)) (P ++ T) →
   calcConfusionMatrix P T = Raise IndexError).
Proof.
  intros Hlen. split; [split|split].
  - intros (cM & HcM & _).
    destruct (decide (Forall (in_bounds (classNum P T)) (P ++ T))) as [|Hnot]; [done|].
    rewrite (calcConfusionMatrix_Raise P T Hlen Hnot) in HcM. discriminate.
  - intros Hall.
    destruct (calcConfusionMatrix_Ok P T Hall) as (cM & HcM & _ & Hsum & _).
    exists cM. split; [done|]. rewrite Hsum. f_equal. lia.
  - intros Hnot. exists IndexError. by apply calcConfusionMatrix_Raise.
  - intros _ Hnot. by apply calcConfusionMatrix_Raise.
Qed.

Lemma confusion_matrix_sum_iff_in_bounds_witness :
  length scenario_P = length scenario_T ∧
  ((entries_sum_to_length scenario_P scenario_T ↔
    Forall (in_bounds (classNum scenario_P scenario_T)) (scenario_P ++ scenario_T)) ∧
   (¬ Forall (in_bounds (classNum scenario_P scenario_T)) (scenario_P ++ scenario_T) →
    ∃ e, calcConfusionMatrix scenario_P scenario_T = Raise e) ∧
   (Forall int64 (scenario_P ++ scenario_T) →
    ¬ Forall (in_bounds (classNum scenario_P scenario_T)) (scenario_P ++ scenario_T) →
    calcConfusionMatrix scenario_P scenario_T = Raise IndexError)).
Proof.
  split; [reflexivity|].
  apply (confusion_matrix_sum_iff_in_bounds scenario_P scenario_T). reflexivity.
Defined.

(** C10: [calcConfusionMatrix] checks no lengths.  When every label is a
    class index 0..K-1 it returns a matrix, whatever the two lengths, and the
    entries sum to the number of zipped pairs, min(len(LPred), len(LTrue)). *)
Theorem confusion_matrix_unequal_lengths (LPred LTrue : list Z) :
  Forall (class_index (classNum LPred LTrue)) (LPred ++ LTrue) →
  ∃ cM, calcConfusionMatrix LPred LTrue = Ok cM ∧
        np_sum cM = Z.of_nat (length LPred `min` length LTrue).
Proof.
  intros Hall.
  destruct (calcConfusionMatrix_Ok LPred LTrue (class_indices_in_bounds _ _ Hall))
    as (cM & HcM & _ & Hsum & _).
  by exists cM.
Qed.

Lemma confusion_matrix_unequal_lengths_witness :
  Forall (class_index (classNum [0; 1; 1; 0] [1; 1])) ([0; 1; 1; 0] ++ [1; 1]) ∧
  ∃ cM, calcConfusionMatrix [0; 1; 1; 0] [1; 1] = Ok cM ∧
        np_sum cM = Z.of_nat (length [0; 1; 1; 0] `min` length [1; 1]).
Proof.
  assert (Forall (class_index (classNum [0; 1; 1; 0] [1; 1])) ([0; 1; 1; 0] ++ [1; 1]))
    as Hall.
  { apply (bool_decide_unpack _). vm_compute. exact I. }
  split; [exact Hall|].
  apply (confusion_matrix_unequal_lengths [0; 1; 1; 0] [1; 1]). exact Hall.
Defined.

(** C9, as stated, fails in its ordering half: with labels -1 and 0 the
    label -1 is first in the sorted ordering, yet the code counts it in the
    last row. *)
Lemma canonical_row_order_fails : ¬ canonical_row_order [-1; -1; 0] [-1; -1; 0].
Proof.
  intros Hord. specialize (Hord (-1) 0%nat ltac:(left) eq_refl).
  vm_compute in Hord. discriminate.
Qed.

(** *** Accuracy from the confusion matrix *)

(** C6, as stated, fails: on the all-zero 2 x 2 matrix the code raises
    nothing and its NaN is what the division 0.0 / 0.0 leaves behind, flagged
    by NumPy's invalid-value warning. *)
Lemma degenerate_is_explicit_fails :
  np_sum [[0; 0]; [0; 0]] = 0 ∧ ¬ degenerate_is_explicit [[0; 0]; [0; 0]].
Proof. split; [reflexivity|]. intros [H|H]; vm_compute in H; discriminate. Qed.

(** C6, amended: [calcAccuracyCM] never raises.  On a matrix with positive
    sum it returns (sum of the diagonal) / (sum of all entries).  On a matrix
    of counts whose sum is zero it returns the NaN of the unguarded division
    0 / 0, together with NumPy's invalid-value warning. *)
Theorem calcAccuracyCM_ratio_or_nan (cM : matrix) :
  (∀ e, calcAccuracyCM cM ≠ Raise e) ∧
  (0 < np_sum cM →
   ∃ q, calcAccuracyCM cM = Ok (FVal q, []) ∧
        (q == inject_Z (np_trace cM) / inject_Z (np_sum cM))%Q) ∧
  (np_sum cM = 0 → count_matrix cM →
   calcAccuracyCM cM = Ok (FNaN, [InvalidValue])).
Proof.
  unfold calcAccuracyCM. split; [done|]. split.
  - intros Hpos. rewrite np_true_divide_pos by done.
    eexists. split; [done|]. apply Qred_correct.
  - intros Hzero Hcounts.
    pose proof (trace_from_le_sum 0 cM Hcounts) as Htr. fold (np_trace cM) in Htr.
    replace (np_trace cM) with 0 by lia. by rewrite Hzero.
Qed.

Lemma calcAccuracyCM_ratio_or_nan_witness :
  calcAccuracyCM [[0; 0]; [0; 0]] = Ok (FNaN, [InvalidValue]) ∧
  ∃ q, calcAccuracyCM scenario_cM = Ok (FVal q, []) ∧
       (q == inject_Z (np_trace scenario_cM) / inject_Z (np_sum scenario_cM))%Q.
Proof.
  split.
  - apply (calcAccuracyCM_ratio_or_nan [[0; 0]; [0; 0]]); [reflexivity|].
    apply (bool_decide_unpack _). vm_compute. exact I.
  - apply (calcAccuracyCM_ratio_or_nan scenario_cM). reflexivity.
Defined.

(** *** The two accuracy computations together *)

(** C1, as stated, fails.  For empty sequences both computations return
    NaN, which equals nothing.  For labels -1 and 1 both labels index the
    last row and column, so every sample is counted on the diagonal: the
    matrix gives accuracy 1 where the labels give 0. *)
Lemma accuracies_agree_fails :
  ¬ accuracies_agree [] [] ∧ ¬ accuracies_agree [-1; 1] [1; -1].
Proof.
  split; intros (q & Hlabels & Hmatrix);
    vm_compute in Hlabels; vm_compute in Hmatrix; congruence.
Qed.

(** C1, amended: for non-empty sequences of equal length whose labels are
    the class indices 0..K-1, K the number of distinct labels, the accuracy
    from the labels and the accuracy from the confusion matrix are the same
    number. *)
Theorem accuracy_from_matrix_agrees (P T : list Z) :
  length P = length T → P ≠ [] →
  Forall (class_index (classNum P T)) (P ++ T) →
  accuracies_agree P T.
Proof.
  intros Hlen Hne Hall.
  assert (0 < Z.of_nat (length P)) as HN by (destruct P; [done|simpl; lia]).
  destruct (calcConfusionMatrix_Ok P T (class_indices_in_bounds _ _ Hall))
    as (cM & HcM & _ & Hsum & Htr & _).
  rewrite (diag_hits_correct_count _ P T Hall) in Htr.
  replace (length P `min` length T)%nat with (length P) in Hsum by lia.
  eexists. split.
  - rewrite calcAccuracy_equal_length by done. by rewrite np_true_divide_pos.
  - unfold matrix_accuracy. rewrite HcM. cbn [bind]. unfold calcAccuracyCM.
    rewrite Htr, Hsum. by rewrite np_true_divide_pos.
Qed.

Lemma accuracy_from_matrix_agrees_witness :
  length scenario_P = length scenario_T ∧ scenario_P ≠ [] ∧
  Forall (class_index (classNum scenario_P scenario_T)) (scenario_P ++ scenario_T) ∧
  accuracies_agree scenario_P scenario_T.
Proof.
  assert (Forall (class_index (classNum scenario_P scenario_T))
            (scenario_P ++ scenario_T)) as Hall.
  { apply (bool_decide_unpack _). vm_compute. exact I. }
  split; [reflexivity|]. split; [discriminate|]. split; [exact Hall|].
  apply (accuracy_from_matrix_agrees scenario_P scenario_T);
    [reflexivity | discriminate | exact Hall].
Defined.

(** C7, as stated, fails: for the empty sequence the accuracy is NaN, not
    1.0; and for the single label 1 no matrix is returned, since [cM[1, 1]]
    is out of bounds for the 1 x 1 matrix. *)
Lemma perfect_prediction_fails :
  ¬ perfect_prediction [] ∧ ¬ perfect_prediction [1].
Proof.
  split.
  - intros [Hacc _]. vm_compute in Hacc. discriminate.
  - intros (_ & cM & HcM & _). vm_compute in HcM. discriminate.
Qed.

(** C7, amended: for a non-empty sequence P, [calcAccuracy(P, P)] is exactly
    1.0; and when moreover every label is a valid index of the K x K matrix
    (as the class indices 0..K-1 are), [calcConfusionMatrix(P, P)] is
    diagonal. *)
Theorem identical_labels_perfect (P : list Z) :
  P ≠ [] →
  calcAccuracy P P = Ok (FVal 1, []) ∧
  (Forall (in_bounds (classNum P P)) P →
   ∃ cM, calcConfusionMatrix P P = Ok cM ∧ diagonal cM).
Proof.
  intros Hne.
  assert (0 < Z.of_nat (length P)) as HN by (destruct P; [done|simpl; lia]).
  split.
  - rewrite calcAccuracy_equal_length by done.
    rewrite correct_count_same, np_true_divide_pos by done.
    by rewrite ratio_self.
  - intros Hall.
    destruct (calcConfusionMatrix_Ok P P) as (cM & HcM & Hsq & _ & _ & Hcell).
    { apply Forall_app. done. }
    exists cM. split; [done|]. intros r c v Hrc Hv.
    destruct (square_cell_lt _ _ _ _ _ Hsq Hv) as [Hr Hc].
    rewrite Hcell in Hv by done. rewrite hits_same_off_diagonal in Hv by done.
    by simplify_eq.
Qed.

Lemma identical_labels_perfect_witness :
  scenario_P ≠ [] ∧ Forall (in_bounds (classNum scenario_P scenario_P)) scenario_P ∧
  perfect_prediction scenario_P.
Proof.
  assert (Forall (in_bounds (classNum scenario_P scenario_P)) scenario_P) as Hall.
  { apply (bool_decide_unpack _). vm_compute. exact I. }
  split; [discriminate|]. split; [exact Hall|].
  destruct (identical_labels_perfect scenario_P) as [Hacc Hdiag]; [discriminate|].
  split; [exact Hacc | exact (Hdiag Hall)].
Defined.

(** C8: on P = [0,1,1,0,1] and T = [0,1,0,0,1] the accuracy is 4/5, the
    labels are {0, 1}, the confusion matrix is [[2,0],[1,2]] with trace 4 and
    total 5, and the accuracy from the matrix is 4/5 as well. *)
Theorem scenario_values :
  calcAccuracy scenario_P scenario_T = Ok (FVal (4 # 5), []) ∧
  np_unique (scenario_P ++ scenario_T) = [0; 1] ∧
  calcConfusionMatrix scenario_P scenario_T = Ok scenario_cM ∧
  np_trace scenario_cM = 4 ∧
  np_sum scenario_cM = 5 ∧
  calcAccuracyCM scenario_cM = Ok (FVal (4 # 5), []) ∧
  matrix_accuracy scenario_P scenario_T = calcAccuracy scenario_P scenario_T.
Proof. repeat split; vm_compute; reflexivity. Qed.

(** ** Further properties of the evaluation functions *)

Section more_indexing.
Implicit Types (K r c : nat) (l : Z).

Lemma norm_index_Some_iff K l r :
  norm_index K l = Some r ↔ (r < K)%nat ∧ resolves_to K r l.
Proof.
  unfold norm_index, resolves_to. repeat case_decide; split.
  - intros [= <-]. lia.
  - intros [Hr [-> | ->]]; f_equal; lia.
  - intros [= <-]. lia.
  - intros [Hr [-> | ->]]; f_equal; lia.
  - done.
  - intros [Hr [-> | ->]]; lia.
Qed.

Lemma square_cell_None K (cM : matrix) r c :
  square K cM → ¬ ((r < K)%nat ∧ (c < K)%nat) → cell cM r c = None.
Proof.
  intros Hsq Hout. destruct (cell cM r c) as [v|] eqn:Hv; [|done].
  destruct Hout. by eapply square_cell_lt.
Qed.

(** Two [K] x [K] matrices with the same cells are the same matrix. *)
Lemma square_cell_ext K (a b : matrix) :
  square K a → square K b → (∀ r c, cell a r c = cell b r c) → a = b.
Proof.
  intros [Hla Hra] [Hlb Hrb] Hcells. apply list_eq. intros r.
  destruct (a !! r) as [ra|] eqn:Ha, (b !! r) as [rb|] eqn:Hb.
  - f_equal. apply list_eq. intros c.
    specialize (Hcells r c). unfold cell in Hcells. by rewrite Ha, Hb in Hcells.
  - apply lookup_lt_Some in Ha. apply lookup_ge_None in Hb. lia.
  - apply lookup_ge_None in Ha. apply lookup_lt_Some in Hb. lia.
  - done.
Qed.
End more_indexing.

(** What the call returns, stated on the zipped pairs alone. *)
Lemma calcConfusionMatrix_pairs_Ok P T :
  let K := classNum P T in
  Forall (pair_in_bounds K) (zip T P) →
  ∃ cM, calcConfusionMatrix P T = Ok cM ∧ square K cM ∧
        np_sum cM = Z.of_nat (length (zip T P)) ∧
        np_trace cM = Z.of_nat (diag_hits K (zip T P)) ∧
        ∀ r c, (r < K)%nat → (c < K)%nat →
               cell cM r c = Some (Z.of_nat (hits K r c (zip T P))).
Proof.
  intros K Hall. unfold calcConfusionMatrix. fold (classNum P T). fold K.
  destruct (cm_loop_Ok K (zip T P) (np_zeros K K) (square_zeros K) Hall)
    as (cM & Hloop & Hsq & Hsum & Htr & Hcell).
  exists cM. split; [done|]. split; [done|].
  rewrite np_sum_zeros in Hsum. rewrite np_trace_zeros in Htr.
  split; [by rewrite Hsum|]. split; [by rewrite Htr|].
  intros r c Hr Hc. by rewrite Hcell, cell_zeros_Some.
Qed.

Lemma calcConfusionMatrix_pairs_Raise P T :
  ¬ Forall (pair_in_bounds (classNum P T)) (zip T P) →
  calcConfusionMatrix P T = Raise IndexError.
Proof.
  intros Hnot. unfold calcConfusionMatrix. fold (classNum P T).
  by apply (cm_loop_Raise (classNum P T)); [apply square_zeros|].
Qed.

Lemma calcConfusionMatrix_Ok_inv P T cM :
  calcConfusionMatrix P T = Ok cM → Forall (pair_in_bounds (classNum P T)) (zip T P).
Proof.
  intros HcM.
  destruct (decide (Forall (pair_in_bounds (classNum P T)) (zip T P))) as [|Hnot]; [done|].
  rewrite (calcConfusionMatrix_pairs_Raise P T Hnot) in HcM. discriminate.
Qed.

Lemma Forall_zip_positions K (P T : list Z) :
  Forall (pair_in_bounds K) (zip T P) ↔
  ∀ i p t, P !! i = Some p → T !! i = Some t → in_bounds K p ∧ in_bounds K t.
Proof.
  rewrite Forall_lookup. split.
  - intros Hall i p t Hp Ht. apply (Hall i (t, p)).
    apply lookup_zip_with_Some. eauto.
  - intros Hpos i [t p] Hi.
    apply lookup_zip_with_Some in Hi as (t' & p' & [= -> ->] & Ht & Hp).
    by apply (Hpos i).
Qed.

Lemma hits_le_length K r c (pairs : list (Z * Z)) : (hits K r c pairs ≤ length pairs)%nat.
Proof. apply length_filter. Qed.

Lemma diag_hits_le_length K (pairs : list (Z * Z)) : (diag_hits K pairs ≤ length pairs)%nat.
Proof. apply length_filter. Qed.

(** A returned matrix holds counts: no cell is negative. *)
Lemma calcConfusionMatrix_count_matrix P T cM :
  calcConfusionMatrix P T = Ok cM → count_matrix cM.
Proof.
  intros HcM. pose proof (calcConfusionMatrix_Ok_inv P T cM HcM) as Hall.
  destruct (calcConfusionMatrix_pairs_Ok P T Hall) as (cM' & HcM' & Hsq & _ & _ & Hcell).
  rewrite HcM in HcM'. injection HcM' as <-.
  apply Forall_lookup. intros r row Hrow. apply Forall_lookup. intros c v Hv.
  assert (cell cM r c = Some v) as Hrc by (unfold cell; by rewrite Hrow).
  destruct (square_cell_lt _ _ _ _ _ Hsq Hrc) as [Hr Hc].
  rewrite Hcell in Hrc by done. simplify_eq. lia.
Qed.

(** X1: on labels that fit int64, [calcConfusionMatrix] fails with
    IndexError only, and exactly when some position present in both sequences
    carries a label outside [-K, K).  Labels past the end of the shorter
    sequence are never used as indices. *)
Theorem calcConfusionMatrix_raises_iff_label_out_of_bounds (LPred LTrue : list Z) :
  Forall int64 (LPred ++ LTrue) →
  (calcConfusionMatrix LPred LTrue = Raise IndexError ↔
   ∃ i pred true_,
     LPred !! i = Some pred ∧ LTrue !! i = Some true_ ∧
     ¬ (in_bounds (classNum LPred LTrue) pred ∧ in_bounds (classNum LPred LTrue) true_)) ∧
  (∀ e, calcConfusionMatrix LPred LTrue = Raise e → e = IndexError).
Proof.
  intros _. set (K := classNum LPred LTrue).
  destruct (decide (Forall (pair_in_bounds K) (zip LTrue LPred))) as [Hall|Hnot].
  - destruct (calcConfusionMatrix_pairs_Ok LPred LTrue Hall) as (cM & -> & _).
    split; [|done]. split; [done|].
    intros (i & p & t & Hp & Ht & Hout). destruct Hout.
    by eapply (proj1 (Forall_zip_positions K LPred LTrue)).
  - rewrite (calcConfusionMatrix_pairs_Raise LPred LTrue Hnot).
    split; [|by intros e [= <-]]. split; [|done]. intros _.
    apply not_Forall_Exists in Hnot; [|apply _].
    apply Exists_exists in Hnot as ([t p] & Hin & Hout).
    apply list_elem_of_lookup in Hin as [i Hi].
    apply lookup_zip_with_Some in Hi as (t' & p' & [= -> ->] & Ht & Hp).
    exists i, p', t'. done.
Qed.

Lemma calcConfusionMatrix_raises_iff_label_out_of_bounds_witness :
  Forall int64 (wrapped_P ++ wrapped_T) ∧
  (∀ e, calcConfusionMatrix wrapped_P wrapped_T = Raise e → e = IndexError).
Proof.
  assert (Forall int64 (wrapped_P ++ wrapped_T)) as Hint.
  { apply (bool_decide_unpack _). vm_compute. exact I. }
  split; [exact Hint|].
  apply (calcConfusionMatrix_raises_iff_label_out_of_bounds wrapped_P wrapped_T Hint).
Defined.

(** X2: when every label lies in [-K, K), the result is a K x K matrix, and
    its cell (r, c) counts the samples whose predicted label is r or r - K
    and whose true label is c or c - K: a negative label l is counted as
    class l + K. *)
Theorem confusion_matrix_counts_wrapped_labels (LPred LTrue : list Z) :
  let K := classNum LPred LTrue in
  Forall (in_bounds K) (LPred ++ LTrue) →
  ∃ cM, calcConfusionMatrix LPred LTrue = Ok cM ∧ square K cM ∧
        ∀ r c, (r < K)%nat → (c < K)%nat →
          cell cM r c =
            Some (Z.of_nat (count_positions
                              (λ pred true_, resolves_to K r pred ∧ resolves_to K c true_)
                              LPred LTrue)).
Proof.
  intros K Hall.
  destruct (calcConfusionMatrix_Ok LPred LTrue Hall) as (cM & HcM & Hsq & _ & _ & Hcell).
  exists cM. split; [done|]. split; [done|]. intros r c Hr Hc.
  rewrite Hcell by done. do 2 f_equal.
  unfold hits. rewrite count_positions_zip.
  apply zip_swap_filter_length. intros p t _. cbn [fst snd].
  rewrite !norm_index_Some_iff. tauto.
Qed.

Lemma confusion_matrix_counts_wrapped_labels_witness :
  Forall (in_bounds (classNum wrapped_P wrapped_T)) (wrapped_P ++ wrapped_T) ∧
  ∃ cM, calcConfusionMatrix wrapped_P wrapped_T = Ok cM ∧
        square (classNum wrapped_P wrapped_T) cM ∧
        ∀ r c, (r < classNum wrapped_P wrapped_T)%nat →
               (c < classNum wrapped_P wrapped_T)%nat →
          cell cM r c =
            Some (Z.of_nat (count_positions
                              (λ pred true_,
                                 resolves_to (classNum wrapped_P wrapped_T) r pred ∧
                                 resolves_to (classNum wrapped_P wrapped_T) c true_)
                              wrapped_P wrapped_T)).
Proof.
  assert (Forall (in_bounds (classNum wrapped_P wrapped_T)) (wrapped_P ++ wrapped_T))
    as Hall.
  { apply (bool_decide_unpack _). vm_compute. exact I. }
  split; [exact Hall|].
  apply (confusion_matrix_counts_wrapped_labels wrapped_P wrapped_T). exact Hall.
Defined.

(** X3: for labels that int64 and float64 hold exactly (at most 2^53 in
    magnitude), a returned matrix is K x K, each of its cells is a count
    between 0 and the number of zipped samples, and its entries sum to that
    number. *)
Theorem confusion_matrix_cells_are_counts (LPred LTrue : list Z) (cM : matrix) :
  Forall float_exact (LPred ++ LTrue) →
  calcConfusionMatrix LPred LTrue = Ok cM →
  square (classNum LPred LTrue) cM ∧
  np_sum cM = Z.of_nat (length LPred `min` length LTrue) ∧
  ∀ r c v, cell cM r c = Some v → 0 ≤ v ≤ Z.of_nat (length LPred `min` length LTrue).
Proof.
  intros _ HcM. pose proof (calcConfusionMatrix_Ok_inv _ _ _ HcM) as Hall.
  destruct (calcConfusionMatrix_pairs_Ok LPred LTrue Hall)
    as (cM' & HcM' & Hsq & Hsum & _ & Hcell).
  rewrite HcM in HcM'. injection HcM' as <-.
  assert (length (zip LTrue LPred) = (length LPred `min` length LTrue)%nat) as Hlen.
  { rewrite length_zip_with. lia. }
  split; [done|]. split; [by rewrite Hsum, Hlen|].
  intros r c v Hv. destruct (square_cell_lt _ _ _ _ _ Hsq Hv) as [Hr Hc].
  rewrite Hcell in Hv by done. simplify_eq.
  pose proof (hits_le_length (classNum LPred LTrue) r c (zip LTrue LPred)). lia.
Qed.

Lemma confusion_matrix_cells_are_counts_witness :
  Forall float_exact (scenario_P ++ scenario_T) ∧
  calcConfusionMatrix scenario_P scenario_T = Ok scenario_cM ∧
  square (classNum scenario_P scenario_T) scenario_cM ∧
  np_sum scenario_cM = Z.of_nat (length scenario_P `min` length scenario_T) ∧
  ∀ r c v, cell scenario_cM r c = Some v →
           0 ≤ v ≤ Z.of_nat (length scenario_P `min` length scenario_T).
Proof.
  assert (Forall float_exact (scenario_P ++ scenario_T)) as Hexact.
  { apply (bool_decide_unpack _). vm_compute. exact I. }
  split; [exact Hexact|]. split; [reflexivity|].
  apply (confusion_matrix_cells_are_counts scenario_P scenario_T scenario_cM);
    [exact Hexact | reflexivity].
Defined.

(** X4: whenever [calcConfusionMatrix] returns a matrix for two non-empty
    sequences, [calcAccuracyCM] of that matrix is a number in [0, 1], with no
    warning. *)
Theorem matrix_accuracy_in_unit_interval (LPred LTrue : list Z) (cM : matrix) :
  LPred ≠ [] → LTrue ≠ [] →
  calcConfusionMatrix LPred LTrue = Ok cM →
  ∃ q, calcAccuracyCM cM = Ok (FVal q, []) ∧ (0 <= q <= 1)%Q.
Proof.
  intros HP HT HcM. pose proof (calcConfusionMatrix_Ok_inv _ _ _ HcM) as Hall.
  destruct (calcConfusionMatrix_pairs_Ok LPred LTrue Hall)
    as (cM' & HcM' & _ & Hsum & Htr & _).
  rewrite HcM in HcM'. injection HcM' as <-.
  pose proof (diag_hits_le_length (classNum LPred LTrue) (zip LTrue LPred)) as Hle.
  assert (0 < length (zip LTrue LPred))%nat as Hpos.
  { rewrite length_zip_with. destruct LPred, LTrue; simpl; try done; lia. }
  unfold calcAccuracyCM. rewrite Htr, Hsum, np_true_divide_pos by lia.
  eexists. split; [done|]. apply ratio_in_unit_interval; lia.
Qed.

Lemma matrix_accuracy_in_unit_interval_witness :
  scenario_P ≠ [] ∧ scenario_T ≠ [] ∧
  calcConfusionMatrix scenario_P scenario_T = Ok scenario_cM ∧
  ∃ q, calcAccuracyCM scenario_cM = Ok (FVal q, []) ∧ (0 <= q <= 1)%Q.
Proof.
  split; [discriminate|]. split; [discriminate|]. split; [reflexivity|].
  apply (matrix_accuracy_in_unit_interval scenario_P scenario_T scenario_cM);
    [discriminate | discriminate | reflexivity].
Defined.





(** X7: [calcAccuracy] is symmetric in its two arguments, errors included. *)
Theorem calcAccuracy_symmetric (LPred LTrue : list Z) :
  calcAccuracy LPred LTrue = calcAccuracy LTrue LPred.
Proof.
  unfold calcAccuracy.
  destruct (decide (length LPred ≠ length LTrue)) as [Hne|Heq].
  - by rewrite decide_True by (by intros ?).
  - rewrite decide_False by (intros Hne; by apply Heq).
    assert (length LPred = length LTrue) as -> by (by destruct (decide (length LPred = length LTrue))).
    do 2 f_equal. rewrite !np_count_true_equal. f_equal. symmetry.
    apply zip_swap_filter_length. intros p t _. cbn [fst snd]. split; congruence.
Qed.

Lemma zip_swap_fmap (P T : list Z) :
  zip T P = (λ pt : Z * Z, (pt.2, pt.1)) <$> zip P T.
Proof.
  revert T. induction P as [|p P IH]; intros [|t T]; [done..|].
  cbn [zip_with fmap list_fmap fst snd]. f_equal. apply IH.
Qed.

(** X6: on labels that fit int64 the order of the samples does not matter.
    Two equal-length pairs of sequences that hold the same (predicted, true)
    samples in a different order give the same confusion matrix (or both an
    IndexError) and the same accuracy. *)
Theorem sample_order_irrelevant (P T P' T' : list Z) :
  Forall int64 (P ++ T) →
  length P = length T → length P' = length T' →
  zip P T ≡ₚ zip P' T' →
  calcConfusionMatrix P T = calcConfusionMatrix P' T' ∧
  calcAccuracy P T = calcAccuracy P' T'.
Proof.
  intros _ Hlen Hlen' Hperm.
  assert (P ≡ₚ P') as HP.
  { rewrite <- (fst_zip P T), <- (fst_zip P' T') by lia. by rewrite Hperm. }
  assert (T ≡ₚ T') as HT.
  { rewrite <- (snd_zip P T), <- (snd_zip P' T') by lia. by rewrite Hperm. }
  assert (classNum P T = classNum P' T') as HK.
  { unfold classNum. f_equal. apply np_unique_Permutation. by rewrite HP, HT. }
  assert (zip T P ≡ₚ zip T' P') as Hpairs.
  { rewrite (zip_swap_fmap P T), (zip_swap_fmap P' T'). by rewrite Hperm. }
  split.
  - set (K := classNum P T) in *.
    destruct (decide (Forall (pair_in_bounds K) (zip T P))) as [Hall|Hnot].
    + destruct (calcConfusionMatrix_pairs_Ok P T Hall) as (cM & -> & Hsq & _ & _ & Hcell).
      assert (Forall (pair_in_bounds (classNum P' T')) (zip T' P')) as Hall'.
      { rewrite <- HK, <- Hpairs. done. }
      destruct (calcConfusionMatrix_pairs_Ok P' T' Hall')
        as (cM' & -> & Hsq' & _ & _ & Hcell').
      rewrite <- HK in Hsq', Hcell'. f_equal.
      apply (square_cell_ext K); [done..|]. intros r c.
      destruct (decide ((r < K)%nat ∧ (c < K)%nat)) as [[Hr Hc]|Hout].
      * rewrite Hcell, Hcell' by done. do 2 f_equal. unfold hits.
        apply Permutation_length. by rewrite Hpairs.
      * by rewrite !(square_cell_None K) by done.
    + rewrite (calcConfusionMatrix_pairs_Raise P T Hnot). symmetry.
      apply calcConfusionMatrix_pairs_Raise. rewrite <- HK, <- Hpairs. done.
  - rewrite !calcAccuracy_equal_length by done.
    unfold correct_count. rewrite !count_positions_zip.
    do 3 f_equal.
    + apply Permutation_length. by rewrite Hperm.
    + by apply Permutation_length.
Qed.

Lemma sample_order_irrelevant_witness :
  Forall int64 (scenario_P ++ scenario_T) ∧
  length scenario_P = length scenario_T ∧
  length (reverse scenario_P) = length (reverse scenario_T) ∧
  zip scenario_P scenario_T ≡ₚ zip (reverse scenario_P) (reverse scenario_T) ∧
  calcConfusionMatrix scenario_P scenario_T =
    calcConfusionMatrix (reverse scenario_P) (reverse scenario_T) ∧
  calcAccuracy scenario_P scenario_T =
    calcAccuracy (reverse scenario_P) (reverse scenario_T).
Proof.
  assert (zip scenario_P scenario_T ≡ₚ zip (reverse scenario_P) (reverse scenario_T))
    as Hperm.
  { apply (bool_decide_unpack _). vm_compute. exact I. }
  assert (Forall int64 (scenario_P ++ scenario_T)) as Hint.
  { apply (bool_decide_unpack _). vm_compute. exact I. }
  split; [exact Hint|].
  split; [reflexivity|]. split; [reflexivity|]. split; [exact Hperm|].
  apply (sample_order_irrelevant scenario_P scenario_T
           (reverse scenario_P) (reverse scenario_T));
    [exact Hint | reflexivity | reflexivity | exact Hperm].
Defined.

Section fractions.
Implicit Types a b N : Z.

Lemma ratio_zero N : 0 < N → Qred (inject_Z 0 / inject_Z N) = 0%Q.
Proof.
  intros _. transitivity (Qred 0); [|reflexivity]. apply Qred_complete.
  unfold Qdiv. apply Qmult_0_l.
Qed.

Lemma ratio_inj a b N :
  0 < N → Qred (inject_Z a / inject_Z N) = Qred (inject_Z b / inject_Z N) → a = b.
Proof.
  intros HN Heq. apply Qred_eq_iff in Heq.
  assert (¬ (inject_Z N == 0)%Q) as HN'.
  { intros H0. rewrite (Zlt_Qlt 0 N), H0 in HN. by apply Qlt_irrefl in HN. }
  apply inject_Z_injective.
  rewrite <- (Qmult_div_r (inject_Z a) (inject_Z N)) by done.
  rewrite <- (Qmult_div_r (inject_Z b) (inject_Z N)) by done.
  by rewrite Heq.
Qed.
End fractions.

Lemma filter_length_all {A} (Q : A → Prop) `{!∀ x, Decision (Q x)} (l : list A) :
  length (filter Q l) = length l ↔ Forall Q l.
Proof.
  induction l as [|x l IH]; [by split; [constructor|]|].
  rewrite filter_cons. pose proof (length_filter Q l).
  destruct (decide (Q x)); cbn [length]; rewrite Forall_cons; split.
  - intros [= Hl]. split; [done|by apply IH].
  - intros [_ Hl]. f_equal. by apply IH.
  - lia.
  - tauto.
Qed.

Lemma filter_length_zero {A} (Q : A → Prop) `{!∀ x, Decision (Q x)} (l : list A) :
  length (filter Q l) = 0%nat ↔ Forall (λ x, ¬ Q x) l.
Proof.
  induction l as [|x l IH]; [by split; [constructor|]|].
  rewrite filter_cons.
  destruct (decide (Q x)); cbn [length]; rewrite Forall_cons; split.
  - done.
  - tauto.
  - intros Hl. split; [done|by apply IH].
  - intros [_ Hl]. by apply IH.
Qed.

Lemma zip_all_equal (P T : list Z) :
  length P = length T →
  Forall (λ pt : Z * Z, pt.1 = pt.2) (zip P T) ↔ P = T.
Proof.
  revert T. induction P as [|p P IH]; intros [|t T] Hlen; simplify_eq/=.
  - done.
  - rewrite Forall_cons, (IH T Hlen). cbn [fst snd]. split; [by intros [-> ->]|].
    by intros [= -> ->].
Qed.

Lemma zip_none_equal (P T : list Z) :
  Forall (λ pt : Z * Z, ¬ pt.1 = pt.2) (zip P T) ↔
  ∀ i p t, P !! i = Some p → T !! i = Some t → p ≠ t.
Proof.
  rewrite Forall_lookup. split.
  - intros Hall i p t Hp Ht. apply (Hall i (p, t)).
    apply lookup_zip_with_Some. eauto.
  - intros Hpos i [p t] Hi.
    apply lookup_zip_with_Some in Hi as (p' & t' & [= -> ->] & Hp & Ht).
    by apply (Hpos i).
Qed.

Lemma correct_count_zip (P T : list Z) :
  correct_count P T = length (filter (λ pt : Z * Z, pt.1 = pt.2) (zip P T)).
Proof. unfold correct_count. by rewrite count_positions_zip. Qed.

(** X8: for non-empty sequences of equal length whose labels fit int64, the
    accuracy is exactly 1.0 if and only if the two sequences are identical. *)
Theorem accuracy_one_iff_identical (LPred LTrue : list Z) :
  Forall int64 (LPred ++ LTrue) →
  length LPred = length LTrue → LPred ≠ [] →
  (calcAccuracy LPred LTrue = Ok (FVal 1, []) ↔ LPred = LTrue).
Proof.
  intros _ Hlen Hne.
  assert (0 < Z.of_nat (length LPred)) as HN by (destruct LPred; [done|simpl; lia]).
  rewrite calcAccuracy_equal_length, np_true_divide_pos by done.
  rewrite <- (zip_all_equal _ _ Hlen), <- filter_length_all, <- correct_count_zip.
  rewrite length_zip_with, <- Hlen, Nat.min_id.
  split.
  - intros [= Hq]. rewrite <- (ratio_self (Z.of_nat (length LPred))) in Hq by done.
    apply ratio_inj in Hq; [lia|done].
  - intros ->. by rewrite ratio_self.
Qed.

Lemma accuracy_one_iff_identical_witness :
  Forall int64 (scenario_P ++ scenario_P) ∧
  length scenario_P = length scenario_P ∧ scenario_P ≠ [] ∧
  (calcAccuracy scenario_P scenario_P = Ok (FVal 1, []) ↔ scenario_P = scenario_P).
Proof.
  assert (Forall int64 (scenario_P ++ scenario_P)) as Hint.
  { apply (bool_decide_unpack _). vm_compute. exact I. }
  split; [exact Hint|]. split; [reflexivity|]. split; [discriminate|].
  apply (accuracy_one_iff_identical scenario_P scenario_P);
    [exact Hint | reflexivity | discriminate].
Defined.

(** X9: for non-empty sequences of equal length whose labels fit int64, the
    accuracy is exactly 0.0 if and only if the two sequences agree at no
    position. *)
Theorem accuracy_zero_iff_no_agreement (LPred LTrue : list Z) :
  Forall int64 (LPred ++ LTrue) →
  length LPred = length LTrue → LPred ≠ [] →
  (calcAccuracy LPred LTrue = Ok (FVal 0, []) ↔
   ∀ i pred true_, LPred !! i = Some pred → LTrue !! i = Some true_ → pred ≠ true_).
Proof.
  intros _ Hlen Hne.
  assert (0 < Z.of_nat (length LPred)) as HN by (destruct LPred; [done|simpl; lia]).
  rewrite calcAccuracy_equal_length, np_true_divide_pos by done.
  rewrite <- zip_none_equal, <- filter_length_zero, <- correct_count_zip.
  split.
  - intros [= Hq]. rewrite <- (ratio_zero (Z.of_nat (length LPred))) in Hq by done.
    apply ratio_inj in Hq; [lia|done].
  - intros ->. by rewrite ratio_zero.
Qed.

Lemma accuracy_zero_iff_no_agreement_witness :
  Forall int64 (flipped_P ++ flipped_T) ∧
  length flipped_P = length flipped_T ∧ flipped_P ≠ [] ∧
  (calcAccuracy flipped_P flipped_T = Ok (FVal 0, []) ↔
   ∀ i pred true_,
     flipped_P !! i = Some pred → flipped_T !! i = Some true_ → pred ≠ true_).
Proof.
  assert (Forall int64 (flipped_P ++ flipped_T)) as Hint.
  { apply (bool_decide_unpack _). vm_compute. exact I. }
  split; [exact Hint|]. split; [reflexivity|]. split; [discriminate|].
  apply (accuracy_zero_iff_no_agreement flipped_P flipped_T);
    [exact Hint | reflexivity | discriminate].
Defined.

(** X10: [calcAccuracy] returns NaN exactly when both sequences are empty
    (then with NumPy's invalid-value warning), and it never returns an
    infinity. *)
Theorem calcAccuracy_nan_iff_empty (LPred LTrue : list Z) :
  (calcAccuracy LPred LTrue = Ok (FNaN, [InvalidValue]) ↔ LPred = [] ∧ LTrue = []) ∧
  (∀ w, calcAccuracy LPred LTrue = Ok (FNaN, w) → w = [InvalidValue]) ∧
  (∀ s w, calcAccuracy LPred LTrue ≠ Ok (FInf s, w)).
Proof.
  destruct (decide (length LPred = length LTrue)) as [Hlen|Hlen].
  - rewrite calcAccuracy_equal_length by done.
    destruct LPred as [|p P].
    + destruct LTrue; [|done]. vm_compute. split; [done|]. split; [|done].
      by intros w [= <-].
    + rewrite np_true_divide_pos by (simpl; lia).
      split; [|done]. split; [done|]. by intros [? _].
  - unfold calcAccuracy. rewrite decide_True by done.
    split; [|done]. split; [done|]. intros [-> ->]. by destruct Hlen.
Qed.

(** X11: on any matrix of counts with a positive total, square or not,
    [calcAccuracyCM] returns a number in [0, 1], with no warning. *)
Theorem calcAccuracyCM_in_unit_interval (cM : matrix) :
  count_matrix cM → 0 < np_sum cM →
  ∃ q, calcAccuracyCM cM = Ok (FVal q, []) ∧ (0 <= q <= 1)%Q.
Proof.
  intros Hcounts Hpos. unfold calcAccuracyCM. rewrite np_true_divide_pos by done.
  eexists. split; [done|].
  pose proof (trace_from_le_sum 0 cM Hcounts). apply ratio_in_unit_interval; [done|lia].
Qed.

Lemma calcAccuracyCM_in_unit_interval_witness :
  count_matrix scenario_cM ∧ 0 < np_sum scenario_cM ∧
  ∃ q, calcAccuracyCM scenario_cM = Ok (FVal q, []) ∧ (0 <= q <= 1)%Q.
Proof.
  assert (count_matrix scenario_cM) as Hcounts.
  { apply (bool_decide_unpack _). vm_compute. exact I. }
  split; [exact Hcounts|]. split; [reflexivity|].
  apply (calcAccuracyCM_in_unit_interval scenario_cM); [exact Hcounts | reflexivity].
Defined.

(** X12: for equal-length sequences of non-negative labels that fit int64,
    a matrix is returned exactly when the distinct labels are 0, 1, ..., K-1
    with no gap; any other label set (such as {1, 2} or {0, 2}) ends in
    IndexError. *)
Theorem nonnegative_labels_need_no_gaps (LPred LTrue : list Z) :
  length LPred = length LTrue →
  Forall (Z.le 0) (LPred ++ LTrue) →
  Forall int64 (LPred ++ LTrue) →
  ((∃ cM, calcConfusionMatrix LPred LTrue = Ok cM) ↔
   np_unique (LPred ++ LTrue) = seqZ 0 (Z.of_nat (classNum LPred LTrue))) ∧
  ((∀ cM, calcConfusionMatrix LPred LTrue ≠ Ok cM) →
   calcConfusionMatrix LPred LTrue = Raise IndexError).
Proof.
  intros Hlen Hnonneg _. set (K := classNum LPred LTrue). split; [split|].
  - intros [cM HcM].
    pose proof (calcConfusionMatrix_Ok_inv _ _ _ HcM) as Hall.
    apply (zip_pairs_in_bounds_inv _ _ _ Hlen) in Hall.
    assert (Forall (class_index K) (LPred ++ LTrue)) as Hci.
    { rewrite Forall_forall in Hall, Hnonneg. apply Forall_forall. intros l Hl.
      specialize (Hall l Hl). specialize (Hnonneg l Hl).
      unfold in_bounds, class_index in *. fold K in Hall. lia. }
    apply list_eq. intros r. destruct (decide (r < K)%nat) as [Hr|Hr].
    + rewrite (np_unique_class_indices (LPred ++ LTrue) r) by done.
      symmetry. apply lookup_seqZ. lia.
    + unfold K, classNum in Hr |- *.
      rewrite (lookup_ge_None_2 (np_unique (LPred ++ LTrue)) r) by lia.
      rewrite lookup_ge_None_2 by (rewrite length_seqZ; lia). done.
  - intros Huniq. destruct (calcConfusionMatrix_Ok LPred LTrue) as (cM & HcM & _); [|eauto].
    apply Forall_forall. intros l Hl. apply elem_of_np_unique in Hl.
    rewrite Huniq in Hl. apply elem_of_seqZ in Hl. unfold in_bounds. fold K. lia.
  - intros Hnone. destruct (calcConfusionMatrix LPred LTrue) as [cM|e] eqn:HcM.
    + by destruct (Hnone cM).
    + rewrite <- HcM. apply calcConfusionMatrix_pairs_Raise. intros Hall.
      destruct (calcConfusionMatrix_pairs_Ok LPred LTrue Hall) as (cM & HcM' & _).
      congruence.
Qed.

Lemma nonnegative_labels_need_no_gaps_witness :
  length scenario_P = length scenario_T ∧
  Forall (Z.le 0) (scenario_P ++ scenario_T) ∧
  Forall int64 (scenario_P ++ scenario_T) ∧
  ((∃ cM, calcConfusionMatrix scenario_P scenario_T = Ok cM) ↔
   np_unique (scenario_P ++ scenario_T) =
     seqZ 0 (Z.of_nat (classNum scenario_P scenario_T))).
Proof.
  assert (Forall (Z.le 0) (scenario_P ++ scenario_T)) as Hnonneg.
  { apply (bool_decide_unpack _). vm_compute. exact I. }
  assert (Forall int64 (scenario_P ++ scenario_T)) as Hint.
  { apply (bool_decide_unpack _). vm_compute. exact I. }
  split; [reflexivity|]. split; [exact Hnonneg|]. split; [exact Hint|].
  apply (nonnegative_labels_need_no_gaps scenario_P scenario_T);
    [reflexivity | exact Hnonneg | exact Hint].
Defined.

(** *** Row and column totals *)

Section totals.
Context (K : nat).
Implicit Types (cM : matrix) (pairs : list (Z * Z)).

Lemma row_total_insert cM r c row v i :
  cM !! r = Some row → row !! c = Some v →
  row_total (<[r := <[c := v + 1]> row]> cM) i =
    row_total cM i + (if decide (i = r) then 1 else 0).
Proof.
  intros Hrow Hv. unfold row_total. destruct (decide (i = r)) as [->|Hne].
  - rewrite list_lookup_insert_eq by (by eapply lookup_lt_Some).
    rewrite Hrow. simpl. rewrite (vsum_insert _ _ v) by done. lia.
  - rewrite list_lookup_insert_ne by done. lia.
Qed.

Lemma column_total_insert cM r c row v i :
  cM !! r = Some row → row !! c = Some v →
  column_total (<[r := <[c := v + 1]> row]> cM) i =
    column_total cM i + (if decide (i = c) then 1 else 0).
Proof.
  intros Hrow Hv. unfold column_total. rewrite list_fmap_insert.
  rewrite (vsum_insert _ _ (default 0 (row !! i))) by (by rewrite list_lookup_fmap, Hrow).
  destruct (decide (i = c)) as [->|Hne].
  - rewrite list_lookup_insert_eq by (by eapply lookup_lt_Some).
    rewrite Hv. simpl. lia.
  - rewrite list_lookup_insert_ne by done. lia.
Qed.

Lemma cm_loop_totals pairs cM cM' i :
  square K cM → cm_loop pairs cM = Ok cM' →
  row_total cM' i =
    row_total cM i + Z.of_nat (length (filter (λ tp, norm_index K tp.2 = Some i) pairs)) ∧
  column_total cM' i =
    column_total cM i + Z.of_nat (length (filter (λ tp, norm_index K tp.1 = Some i) pairs)).
Proof.
  revert cM. induction pairs as [|[t p] pairs IH]; intros cM Hsq Hloop.
  - simpl in Hloop. injection Hloop as <-. simpl. lia.
  - cbn [cm_loop] in Hloop.
    destruct (decide (pair_in_bounds K (t, p))) as [[Hp Ht]|Hout].
    + simpl in Hp, Ht.
      apply norm_index_is_Some in Hp as [r Hr]. apply norm_index_is_Some in Ht as [c Hc].
      destruct (cm_step_Ok K cM t p r c Hsq Hr Hc) as (row & v & Hrow & Hv & Hlen & Hstep).
      rewrite Hstep in Hloop. cbn [bind] in Hloop.
      apply IH in Hloop as [Hrows Hcols].
      2:{ apply square_insert; [done|]. by rewrite length_insert. }
      rewrite Hrows, Hcols.
      rewrite (row_total_insert _ _ _ row v), (column_total_insert _ _ _ row v) by done.
      rewrite !filter_cons. cbn [fst snd]. rewrite Hr, Hc.
      split.
      * destruct (decide (i = r)) as [->|Hne].
        -- rewrite decide_True by done. cbn [length]. lia.
        -- rewrite decide_False by congruence. lia.
      * destruct (decide (i = c)) as [->|Hne].
        -- rewrite decide_True by done. cbn [length]. lia.
        -- rewrite decide_False by congruence. lia.
    + rewrite (cm_step_Raise K) in Hloop by done. discriminate.
Qed.

Lemma row_total_zeros n m i : row_total (np_zeros n m) i = 0.
Proof.
  unfold row_total, np_zeros.
  destruct (replicate n (replicate m 0) !! i) as [row|] eqn:Hrow; [|done].
  apply lookup_replicate in Hrow as [-> _]. apply vsum_zeros.
Qed.

Lemma column_total_zeros n m i : column_total (np_zeros n m) i = 0.
Proof.
  unfold column_total, np_zeros. rewrite fmap_replicate.
  replace (default 0 (replicate m 0 !! i)) with 0; [apply vsum_zeros|].
  destruct (replicate m 0 !! i) as [x|] eqn:Hx; [|done].
  by apply lookup_replicate in Hx as [-> _].
Qed.

Lemma filter_zip_snd (Q : Z → Prop) `{!∀ x, Decision (Q x)} (P T : list Z) :
  length P = length T →
  length (filter (λ tp : Z * Z, Q tp.2) (zip T P)) = length (filter Q P).
Proof.
  revert T. induction P as [|p P IH]; intros [|t T] Hlen; simplify_eq/=; [done|].
  rewrite !filter_cons. cbn [snd]. specialize (IH T Hlen).
  destruct (decide (Q p)); cbn [length]; by rewrite IH.
Qed.

Lemma filter_zip_fst (Q : Z → Prop) `{!∀ x, Decision (Q x)} (P T : list Z) :
  length P = length T →
  length (filter (λ tp : Z * Z, Q tp.1) (zip T P)) = length (filter Q T).
Proof.
  revert T. induction P as [|p P IH]; intros [|t T] Hlen; simplify_eq/=; [done|].
  rewrite !filter_cons. cbn [fst]. specialize (IH T Hlen).
  destruct (decide (Q t)); cbn [length]; by rewrite IH.
Qed.
End totals.

(** X13: for equal-length sequences whose labels are the class indices
    0..K-1, the total of row l is the number of samples predicted as l and
    the total of column l is the number of samples whose true label is l. *)
Theorem confusion_matrix_marginals (LPred LTrue : list Z) :
  let K := classNum LPred LTrue in
  length LPred = length LTrue →
  Forall (class_index K) (LPred ++ LTrue) →
  ∃ cM, calcConfusionMatrix LPred LTrue = Ok cM ∧
        ∀ l, class_index K l →
             row_total cM (Z.to_nat l) = Z.of_nat (occurrences l LPred) ∧
             column_total cM (Z.to_nat l) = Z.of_nat (occurrences l LTrue).
Proof.
  intros K Hlen Hall.
  destruct (calcConfusionMatrix_Ok LPred LTrue (class_indices_in_bounds _ _ Hall))
    as (cM & HcM & _).
  exists cM. split; [done|]. intros l Hl.
  unfold calcConfusionMatrix in HcM. fold (classNum LPred LTrue) in HcM. fold K in HcM.
  destruct (cm_loop_totals K _ _ _ (Z.to_nat l) (square_zeros K) HcM) as [Hrow Hcol].
  rewrite row_total_zeros in Hrow. rewrite column_total_zeros in Hcol.
  rewrite Hrow, Hcol. unfold occurrences.
  rewrite <- (filter_zip_snd (λ x, x = l) LPred LTrue Hlen).
  rewrite <- (filter_zip_fst (λ x, x = l) LPred LTrue Hlen).
  rewrite !Z.add_0_l.
  split; f_equal; apply filter_length_ext; intros tp Htp;
    destruct (elem_of_zip_class_index K LPred LTrue tp Hall Htp) as [Hp Ht];
    rewrite norm_index_class_index by done;
    unfold class_index in *; (split; [intros [=]; lia | by intros ->]).
Qed.

Lemma confusion_matrix_marginals_witness :
  length scenario_P = length scenario_T ∧
  Forall (class_index (classNum scenario_P scenario_T)) (scenario_P ++ scenario_T) ∧
  ∃ cM, calcConfusionMatrix scenario_P scenario_T = Ok cM ∧
        ∀ l, class_index (classNum scenario_P scenario_T) l →
             row_total cM (Z.to_nat l) = Z.of_nat (occurrences l scenario_P) ∧
             column_total cM (Z.to_nat l) = Z.of_nat (occurrences l scenario_T).
Proof.
  assert (Forall (class_index (classNum scenario_P scenario_T))
            (scenario_P ++ scenario_T)) as Hall.
  { apply (bool_decide_unpack _). vm_compute. exact I. }
  split; [reflexivity|]. split; [exact Hall|].
  apply (confusion_matrix_marginals scenario_P scenario_T); [reflexivity | exact Hall].
Defined.

(** ** [build_DNN] *)

Section build_DNN.
Context {Loss : Type}.
Implicit Types (model : Sequential Loss) (act_fun optimizer : string).

Lemma add_hidden_layer_layers n_hidden_units act_fun
    use_bn use_dropout use_custom_dropout use_variational_layer kl_weight model :
  layers (add_hidden_layer n_hidden_units act_fun use_bn use_dropout use_custom_dropout
            use_variational_layer kl_weight model) =
    layers model ++ hidden_block n_hidden_units act_fun use_bn use_dropout
                      use_custom_dropout use_variational_layer kl_weight ∧
  compiled (add_hidden_layer n_hidden_units act_fun use_bn use_dropout use_custom_dropout
              use_variational_layer kl_weight model) = compiled model.
Proof.
  unfold add_hidden_layer, hidden_block.
  destruct use_variational_layer, use_bn, use_dropout, use_custom_dropout;
    cbn [add layers compiled]; rewrite <- ?(assoc_L (++)); done.
Qed.

(** The loop adds one block per pass. *)
Lemma for_range_hidden_layers n n_hidden_units act_fun
    use_bn use_dropout use_custom_dropout use_variational_layer kl_weight model :
  layers (for_range n (add_hidden_layer n_hidden_units act_fun use_bn use_dropout
                         use_custom_dropout use_variational_layer kl_weight) model) =
    layers model ++ mjoin (replicate n (hidden_block n_hidden_units act_fun use_bn
                                          use_dropout use_custom_dropout
                                          use_variational_layer kl_weight)) ∧
  compiled (for_range n (add_hidden_layer n_hidden_units act_fun use_bn use_dropout
                           use_custom_dropout use_variational_layer kl_weight) model) =
    compiled model.
Proof.
  revert model. induction n as [|n IH]; intros model.
  - cbn [for_range replicate mjoin list_join]. by rewrite app_nil_r.
  - cbn [for_range replicate]. destruct (IH (add_hidden_layer n_hidden_units act_fun
      use_bn use_dropout use_custom_dropout use_variational_layer kl_weight model))
      as [-> ->].
    destruct (add_hidden_layer_layers n_hidden_units act_fun use_bn use_dropout
      use_custom_dropout use_variational_layer kl_weight model) as [-> ->].
    split; [|done]. cbn [mjoin list_join]. by rewrite <- (assoc_L (++)).
Qed.

(** The model [build_DNN] returns once the optimizer is chosen. *)
Lemma build_DNN_selected input_shape n_hidden_layers n_hidden_units (loss : Loss)
    act_fun optimizer learning_rate use_bn use_dropout use_custom_dropout print_summary
    use_variational_layer kl_weight opt :
  select_optimizer optimizer learning_rate = Ok opt →
  build_DNN input_shape n_hidden_layers n_hidden_units loss act_fun optimizer learning_rate
    use_bn use_dropout use_custom_dropout print_summary use_variational_layer kl_weight =
  Ok (mkSequential
        (architecture input_shape n_hidden_layers n_hidden_units act_fun use_bn
           use_dropout use_custom_dropout use_variational_layer kl_weight)
        (Some (loss, opt, ["accuracy"%string])),
      print_summary).
Proof.
  intros Hopt. unfold build_DNN. rewrite Hopt. cbn [bind]. unfold compile.
  cbn [add layers compiled]. do 3 f_equal. unfold architecture.
  match goal with |- layers (for_range ?n ?f ?m) ++ _ = _ =>
    destruct (for_range_hidden_layers n n_hidden_units act_fun use_bn use_dropout
                use_custom_dropout use_variational_layer kl_weight m) as [-> _]
  end.
  destruct use_bn; cbn [add layers new_Sequential app]; by rewrite <- ?(assoc_L (++)).
Qed.
End build_DNN.

Lemma lower_ascii_idempotent (c : ascii) : lower_ascii (lower_ascii c) = lower_ascii c.
Proof. destruct c as [[] [] [] [] [] [] [] []]; vm_compute; reflexivity. Qed.

Lemma lower_idempotent (s : string) : lower (lower s) = lower s.
Proof.
  induction s as [|c s IH]; [done|].
  cbn [lower]. by rewrite lower_ascii_idempotent, IH.
Qed.

Lemma length_mjoin_replicate {A} n (b : list A) :
  length (mjoin (replicate n b)) = (n * length b)%nat.
Proof.
  induction n as [|n IH]; [done|].
  change (mjoin (replicate (S n) b)) with (b ++ mjoin (replicate n b)).
  rewrite length_app, IH. lia.
Qed.

Lemma filter_mjoin_replicate {A} (Q : A → Prop) `{!∀ x, Decision (Q x)} n (b : list A) :
  filter Q (mjoin (replicate n b)) = mjoin (replicate n (filter Q b)).
Proof.
  induction n as [|n IH]; [done|].
  change (mjoin (replicate (S n) b)) with (b ++ mjoin (replicate n b)).
  change (mjoin (replicate (S n) (filter Q b)))
    with (filter Q b ++ mjoin (replicate n (filter Q b))).
  by rewrite filter_app, IH.
Qed.

Lemma mjoin_replicate_nil {A} n : mjoin (replicate n (@nil A)) = [].
Proof.
  induction n as [|n IH]; [done|].
  by change (mjoin (replicate (S n) (@nil A))) with (mjoin (replicate n (@nil A))).
Qed.

Lemma length_hidden_block n_hidden_units act_fun
    use_bn use_dropout use_custom_dropout use_variational_layer kl_weight :
  length (hidden_block n_hidden_units act_fun use_bn use_dropout use_custom_dropout
            use_variational_layer kl_weight) =
    (2 + flag use_bn + flag use_dropout + flag use_custom_dropout)%nat.
Proof. by destruct use_bn, use_dropout, use_custom_dropout. Qed.

Lemma mjoin_replicate_singleton {A} n (x : A) : mjoin (replicate n [x]) = replicate n x.
Proof.
  induction n as [|n IH]; [done|].
  change (mjoin (replicate (S n) [x])) with (x :: mjoin (replicate n [x])).
  by rewrite IH.
Qed.

Lemma filter_is_Dense_hidden_block n_hidden_units act_fun
    use_bn use_dropout use_custom_dropout use_variational_layer kl_weight :
  filter is_Dense (hidden_block n_hidden_units act_fun use_bn use_dropout
                     use_custom_dropout use_variational_layer kl_weight) =
    if use_variational_layer then [] else [Dense n_hidden_units None].
Proof.
  by destruct use_variational_layer, use_bn, use_dropout, use_custom_dropout.
Qed.

Lemma filter_is_DenseVariational_hidden_block n_hidden_units act_fun
    use_bn use_dropout use_custom_dropout use_variational_layer kl_weight :
  filter is_DenseVariational (hidden_block n_hidden_units act_fun use_bn use_dropout
                                use_custom_dropout use_variational_layer kl_weight) =
    if use_variational_layer then [DenseVariational n_hidden_units kl_weight] else [].
Proof.
  by destruct use_variational_layer, use_bn, use_dropout, use_custom_dropout.
Qed.

Section build_DNN_properties.
Context {Loss : Type}.
Implicit Types (model : Sequential Loss) (loss : Loss) (act_fun optimizer : string).

Lemma build_DNN_Ok_inv input_shape n_hidden_layers n_hidden_units loss
    act_fun optimizer learning_rate use_bn use_dropout use_custom_dropout print_summary
    use_variational_layer kl_weight model printed :
  build_DNN input_shape n_hidden_layers n_hidden_units loss act_fun optimizer learning_rate
    use_bn use_dropout use_custom_dropout print_summary use_variational_layer kl_weight =
    Ok (model, printed) →
  layers model = architecture input_shape n_hidden_layers n_hidden_units act_fun use_bn
                   use_dropout use_custom_dropout use_variational_layer kl_weight ∧
  printed = print_summary.
Proof.
  intros Hbuild.
  destruct (select_optimizer optimizer learning_rate) as [opt|e] eqn:Hopt.
  - rewrite (build_DNN_selected _ _ _ _ _ _ _ _ _ _ _ _ _ opt Hopt) in Hbuild.
    by injection Hbuild as <- <-.
  - unfold build_DNN in Hbuild. rewrite Hopt in Hbuild. discriminate.
Qed.

(** X14: [build_DNN] raises ValueError for an optimizer name whose
    lower-case form is neither "sgd" nor "adam", whatever the other
    arguments.  Whenever it returns a model, the model has, in order: the
    input layer, a batch normalisation if [use_bn], then for each of the
    [n_hidden_layers] hidden layers a dense (or variational) layer, a batch
    normalisation if [use_bn], the activation, a dropout if [use_dropout] and
    a custom dropout if [use_custom_dropout], and last one sigmoid unit; and
    it is compiled with the given loss, with SGD or Adam (as the name says)
    at the given learning rate, and with the accuracy metric. *)
Theorem build_DNN_architecture input_shape n_hidden_layers n_hidden_units loss
    act_fun optimizer learning_rate use_bn use_dropout use_custom_dropout print_summary
    use_variational_layer kl_weight :
  let built :=
    build_DNN input_shape n_hidden_layers n_hidden_units loss act_fun optimizer
      learning_rate use_bn use_dropout use_custom_dropout print_summary
      use_variational_layer kl_weight in
  (lower optimizer ≠ "sgd"%string → lower optimizer ≠ "adam"%string →
   built = Raise ValueError) ∧
  (∀ model printed, built = Ok (model, printed) →
     layers model =
       architecture input_shape n_hidden_layers n_hidden_units act_fun use_bn
         use_dropout use_custom_dropout use_variational_layer kl_weight ∧
     printed = print_summary ∧
     ∃ opt, compiled model = Some (loss, opt, ["accuracy"%string]) ∧
            ((lower optimizer = "sgd"%string ∧ opt = SGD learning_rate) ∨
             (lower optimizer = "adam"%string ∧ opt = Adam learning_rate))).
Proof.
  intros built. unfold built. split.
  - intros Hsgd Hadam. unfold build_DNN, select_optimizer.
    by rewrite !decide_False.
  - intros model printed Hbuild.
    destruct (select_optimizer optimizer learning_rate) as [opt|e] eqn:Hopt.
    + rewrite (build_DNN_selected _ _ _ _ _ _ _ _ _ _ _ _ _ opt Hopt) in Hbuild.
      injection Hbuild as <- <-. split; [done|]. split; [done|].
      exists opt. split; [done|]. unfold select_optimizer in Hopt.
      repeat case_decide; simplify_eq; eauto.
    + unfold build_DNN in Hbuild. rewrite Hopt in Hbuild. discriminate.
Qed.

(** X15: the model [build_DNN] returns has
    2 + [use_bn] + n_hidden_layers * (2 + [use_bn] + [use_dropout] +
    [use_custom_dropout]) layers, the input layer included. *)
Theorem build_DNN_layer_count input_shape n_hidden_layers n_hidden_units loss
    act_fun optimizer learning_rate use_bn use_dropout use_custom_dropout print_summary
    use_variational_layer kl_weight model printed :
  build_DNN input_shape n_hidden_layers n_hidden_units loss act_fun optimizer learning_rate
    use_bn use_dropout use_custom_dropout print_summary use_variational_layer kl_weight =
    Ok (model, printed) →
  length (layers model) =
    (2 + flag use_bn +
     Z.to_nat n_hidden_layers * (2 + flag use_bn + flag use_dropout + flag use_custom_dropout))%nat.
Proof.
  intros [-> _]%build_DNN_Ok_inv. unfold architecture.
  rewrite !length_app, length_mjoin_replicate, length_hidden_block.
  destruct use_bn; cbn [length flag]; lia.
Qed.

(** X16: with [n_hidden_layers <= 0] the loop adds nothing: the model is the
    input layer, a batch normalisation if [use_bn], and the sigmoid unit. *)
Theorem build_DNN_no_hidden_layers input_shape n_hidden_layers n_hidden_units loss
    act_fun optimizer learning_rate use_bn use_dropout use_custom_dropout print_summary
    use_variational_layer kl_weight model printed :
  n_hidden_layers ≤ 0 →
  build_DNN input_shape n_hidden_layers n_hidden_units loss act_fun optimizer learning_rate
    use_bn use_dropout use_custom_dropout print_summary use_variational_layer kl_weight =
    Ok (model, printed) →
  layers model =
    Input input_shape :: (if use_bn then [BatchNormalization] else [])
      ++ [Dense 1 (Some "sigmoid"%string)].
Proof.
  intros Hn [-> _]%build_DNN_Ok_inv. unfold architecture.
  replace (Z.to_nat n_hidden_layers) with 0%nat by lia. done.
Qed.

(** X17: the first layer of a returned model is the input layer of the given
    shape and its last layer is a single sigmoid unit, whatever the flags. *)
Theorem build_DNN_first_and_last_layer input_shape n_hidden_layers n_hidden_units loss
    act_fun optimizer learning_rate use_bn use_dropout use_custom_dropout print_summary
    use_variational_layer kl_weight model printed :
  build_DNN input_shape n_hidden_layers n_hidden_units loss act_fun optimizer learning_rate
    use_bn use_dropout use_custom_dropout print_summary use_variational_layer kl_weight =
    Ok (model, printed) →
  head (layers model) = Some (Input input_shape) ∧
  last (layers model) = Some (Dense 1 (Some "sigmoid"%string)).
Proof.
  intros [-> _]%build_DNN_Ok_inv. unfold architecture. split; [done|].
  rewrite !(assoc_L (++)). apply last_snoc.
Qed.

(** X18: with [use_variational_layer] every hidden layer is variational and
    the only plain dense layer is the output unit; without it the model has
    no variational layer and n_hidden_layers + 1 dense layers. *)
Theorem build_DNN_dense_layers input_shape n_hidden_layers n_hidden_units loss
    act_fun optimizer learning_rate use_bn use_dropout use_custom_dropout print_summary
    use_variational_layer kl_weight model printed :
  build_DNN input_shape n_hidden_layers n_hidden_units loss act_fun optimizer learning_rate
    use_bn use_dropout use_custom_dropout print_summary use_variational_layer kl_weight =
    Ok (model, printed) →
  if use_variational_layer then
    filter is_Dense (layers model) = [Dense 1 (Some "sigmoid"%string)] ∧
    filter is_DenseVariational (layers model) =
      replicate (Z.to_nat n_hidden_layers) (DenseVariational n_hidden_units kl_weight)
  else
    filter is_DenseVariational (layers model) = [] ∧
    filter is_Dense (layers model) =
      replicate (Z.to_nat n_hidden_layers) (Dense n_hidden_units None)
        ++ [Dense 1 (Some "sigmoid"%string)].
Proof.
  intros [-> _]%build_DNN_Ok_inv. unfold architecture.
  rewrite !filter_app, !filter_mjoin_replicate.
  rewrite filter_is_Dense_hidden_block, filter_is_DenseVariational_hidden_block.
  destruct use_variational_layer, use_bn;
    rewrite ?mjoin_replicate_nil, ?mjoin_replicate_singleton;
    repeat match goal with
      | |- context [filter ?Q (?x :: [])] =>
          let r := eval vm_compute in (filter Q (x :: [])) in
          change (filter Q (x :: [])) with r
      | |- context [filter ?Q []] => change (filter Q []) with (@nil layer)
      end;
    cbn [app]; rewrite ?app_nil_r; done.
Qed.

(** X19: the optimizer name is matched without regard to ASCII case:
    lower-casing the name beforehand changes nothing. *)
Theorem build_DNN_optimizer_case_insensitive input_shape n_hidden_layers n_hidden_units
    loss act_fun optimizer learning_rate use_bn use_dropout use_custom_dropout
    print_summary use_variational_layer kl_weight :
  build_DNN input_shape n_hidden_layers n_hidden_units loss act_fun (lower optimizer)
    learning_rate use_bn use_dropout use_custom_dropout print_summary
    use_variational_layer kl_weight =
  build_DNN input_shape n_hidden_layers n_hidden_units loss act_fun optimizer
    learning_rate use_bn use_dropout use_custom_dropout print_summary
    use_variational_layer kl_weight.
Proof. unfold build_DNN, select_optimizer. by rewrite lower_idempotent. Qed.
End build_DNN_properties.

Lemma build_DNN_architecture_witness :
  demo_build 2 = Ok (demo_model, false) ∧
  layers demo_model = architecture [10] 2 16 "relu"%string true true false false None.
Proof.
  split; [reflexivity|].
  destruct (build_DNN_architecture (Loss := string) [10] 2 16
              "binary_crossentropy"%string "relu"%string "Adam"%string (1 # 100)
              true true false false false None) as [_ Hmodel].
  apply (Hmodel demo_model false). reflexivity.
Defined.

Lemma build_DNN_layer_count_witness :
  demo_build 2 = Ok (demo_model, false) ∧ length (layers demo_model) = 11%nat.
Proof.
  split; [reflexivity|].
  apply (build_DNN_layer_count (Loss := string) [10] 2 16 "binary_crossentropy"%string
           "relu"%string "Adam"%string (1 # 100) true true false false false None
           demo_model false).
  reflexivity.
Defined.

Lemma build_DNN_no_hidden_layers_witness :
  0 ≤ 0 ∧ demo_build 0 = Ok (demo_flat_model, false) ∧
  layers demo_flat_model =
    [Input [10]; BatchNormalization; Dense 1 (Some "sigmoid"%string)].
Proof.
  split; [lia|]. split; [reflexivity|].
  apply (build_DNN_no_hidden_layers (Loss := string) [10] 0 16
           "binary_crossentropy"%string "relu"%string "Adam"%string (1 # 100)
           true true false false false None demo_flat_model false);
    [lia | reflexivity].
Defined.

Lemma build_DNN_first_and_last_layer_witness :
  demo_build 2 = Ok (demo_model, false) ∧
  head (layers demo_model) = Some (Input [10]) ∧
  last (layers demo_model) = Some (Dense 1 (Some "sigmoid"%string)).
Proof.
  split; [reflexivity|].
  apply (build_DNN_first_and_last_layer (Loss := string) [10] 2 16
           "binary_crossentropy"%string "relu"%string "Adam"%string (1 # 100)
           true true false false false None demo_model false).
  reflexivity.
Defined.

Lemma build_DNN_dense_layers_witness :
  demo_build 2 = Ok (demo_model, false) ∧
  filter is_DenseVariational (layers demo_model) = [] ∧
  filter is_Dense (layers demo_model) =
    [Dense 16 None; Dense 16 None; Dense 1 (Some "sigmoid"%string)].
Proof.
  split; [reflexivity|].
  apply (build_DNN_dense_layers (Loss := string) [10] 2 16
           "binary_crossentropy"%string "relu"%string "Adam"%string (1 # 100)
           true true false false false None demo_model false).
  reflexivity.
Defined.

Lemma filter_length_mono {A} (Q1 Q2 : A → Prop)
    `{!∀ x, Decision (Q1 x), !∀ x, Decision (Q2 x)} (l : list A) :
  (∀ x, Q1 x → Q2 x) → (length (filter Q1 l) ≤ length (filter Q2 l))%nat.
Proof.
  intros Himpl. induction l as [|x l IH]; [done|].
  rewrite !filter_cons. specialize (Himpl x).
  destruct (decide (Q1 x)), (decide (Q2 x)); cbn [length]; tauto || lia.
Qed.

Lemma ratio_mono a b N :
  a ≤ b → 0 < N →
  (Qred (inject_Z a / inject_Z N) <= Qred (inject_Z b / inject_Z N))%Q.
Proof.
  intros Hab HN. rewrite !Qred_correct. unfold Qdiv.
  apply Qmult_le_compat_r; [by rewrite <- Zle_Qle|].
  apply Qinv_le_0_compat. change 0%Q with (inject_Z 0). rewrite <- Zle_Qle. lia.
Qed.

(** X20: for non-empty sequences of equal length whose labels all lie in
    [-K, K), both accuracies are numbers and the accuracy from the confusion
    matrix is never below the accuracy from the labels: a label and its
    wrapped twin share a row, which can only add to the diagonal. *)
Theorem matrix_accuracy_not_below_label_accuracy (LPred LTrue : list Z) :
  length LPred = length LTrue → LPred ≠ [] →
  Forall (in_bounds (classNum LPred LTrue)) (LPred ++ LTrue) →
  ∃ q q', calcAccuracy LPred LTrue = Ok (FVal q, []) ∧
          matrix_accuracy LPred LTrue = Ok (FVal q', []) ∧
          (q <= q')%Q.
Proof.
  intros Hlen Hne Hall.
  assert (0 < Z.of_nat (length LPred)) as HN by (destruct LPred; [done|simpl; lia]).
  destruct (calcConfusionMatrix_Ok LPred LTrue Hall) as (cM & HcM & _ & Hsum & Htr & _).
  replace (length LPred `min` length LTrue)%nat with (length LPred) in Hsum by lia.
  do 2 eexists. split; [|split].
  - rewrite calcAccuracy_equal_length by done. by rewrite np_true_divide_pos.
  - unfold matrix_accuracy. rewrite HcM. cbn [bind]. unfold calcAccuracyCM.
    rewrite Htr, Hsum. by rewrite np_true_divide_pos.
  - apply ratio_mono; [|done]. apply inj_le.
    rewrite correct_count_zip. unfold diag_hits.
    erewrite <- (zip_swap_filter_length (λ tp : Z * Z, tp.2 = tp.1)).
    + apply filter_length_mono. by intros [t p] ->.
    + intros p t _. cbn [fst snd]. done.
Qed.

Lemma matrix_accuracy_not_below_label_accuracy_witness :
  length wrapped_P = length wrapped_T ∧ wrapped_P ≠ [] ∧
  Forall (in_bounds (classNum wrapped_P wrapped_T)) (wrapped_P ++ wrapped_T) ∧
  ∃ q q', calcAccuracy wrapped_P wrapped_T = Ok (FVal q, []) ∧
          matrix_accuracy wrapped_P wrapped_T = Ok (FVal q', []) ∧
          (q <= q')%Q.
Proof.
  assert (Forall (in_bounds (classNum wrapped_P wrapped_T)) (wrapped_P ++ wrapped_T))
    as Hall.
  { apply (bool_decide_unpack _). vm_compute. exact I. }
  split; [reflexivity|]. split; [discriminate|]. split; [exact Hall|].
  apply (matrix_accuracy_not_below_label_accuracy wrapped_P wrapped_T);
    [reflexivity | discriminate | exact Hall].
Defined.

(** ** The canonical ordering of rows and columns *)

(** C9, amended: two calls on the same inputs yield the same result, and the
    ordering of the distinct labels is their strictly ascending sort order.
    When the labels are the class indices 0..K-1, the rows and columns of the
    returned matrix follow that ordering: a label is counted in the row and
    in the column of its sorted position, so that cell (r, c) counts the
    samples predicted as the r-th and truly of the c-th label in sorted
    order. *)
Theorem confusion_matrix_deterministic_canonical (P T : list Z) :
  (∀ run1 run2,
     run1 = calcConfusionMatrix P T → run2 = calcConfusionMatrix P T → run1 = run2) ∧
  StronglySorted Z.lt (np_unique (P ++ T)) ∧
  (Forall (class_index (classNum P T)) (P ++ T) →
   canonical_row_order P T ∧
   ∃ cM, calcConfusionMatrix P T = Ok cM ∧ square (classNum P T) cM ∧
         ∀ r c lr lc,
           np_unique (P ++ T) !! r = Some lr → np_unique (P ++ T) !! c = Some lc →
           cell cM r c = Some (Z.of_nat (sample_count lr lc P T))).
Proof.
  split; [by intros ?? -> ->|]. split; [apply np_unique_sorted|].
  intros Hall. split.
  - intros l r Hl Hr. apply lookup_lt_Some in Hr as Hr'.
    rewrite (np_unique_class_indices (P ++ T) r) in Hr by done. simplify_eq.
    rewrite norm_index_class_index; [by rewrite Nat2Z.id|].
    unfold class_index, classNum. lia.
  - destruct (calcConfusionMatrix_Ok P T (class_indices_in_bounds _ _ Hall))
      as (cM & HcM & Hsq & _ & _ & Hcell).
    exists cM. split; [done|]. split; [done|].
    intros r c lr lc Hr Hc.
    apply lookup_lt_Some in Hr as Hr'. apply lookup_lt_Some in Hc as Hc'.
    fold (classNum P T) in Hr', Hc'.
    rewrite (np_unique_class_indices (P ++ T) r) in Hr by done.
    rewrite (np_unique_class_indices (P ++ T) c) in Hc by done.
    simplify_eq. rewrite Hcell by done. by rewrite (hits_sample_count _ P T).
Qed.

Lemma confusion_matrix_deterministic_canonical_witness :
  Forall (class_index (classNum scenario_P scenario_T)) (scenario_P ++ scenario_T) ∧
  canonical_row_order scenario_P scenario_T ∧
  counts_by_sorted_position scenario_P scenario_T.
Proof.
  assert (Forall (class_index (classNum scenario_P scenario_T))
            (scenario_P ++ scenario_T)) as Hall.
  { apply (bool_decide_unpack _). vm_compute. exact I. }
  split; [exact Hall|].
  apply (confusion_matrix_deterministic_canonical scenario_P scenario_T). exact Hall.
Defined.
